(** * Verification of the UICP streaming block extractor, the definitions
    cache and the dynamic component loader.

    JavaScript strings are modelled as lists of UTF-16 code units, each
    represented by an [ascii] (the inputs used below are all ASCII). *)

From Stdlib Require Import Ascii String List QArith.
From Stdlib Require Import DecimalString.
From stdpp Require Import base gmap strings list.
Import ListNotations.
Open Scope list_scope.
Set Warnings "-register-all".

(** A JavaScript string: a sequence of code units. *)
Abbreviation jstr := (list ascii).

(** ** JSON values, as produced by [JSON.parse]. *)
Inductive json : Type :=
| JNull
| JBool (b : bool)
| JNum (q : Q)
| JStr (s : jstr)
| JArr (items : list json)
| JObj (members : list (jstr * json)).

(** A value read from a property: [undefined] or a JSON value. *)
Inductive jsval : Type :=
| Undefined
| Val (j : json).

(** JavaScript truthiness. *)
Definition truthy (v : jsval) : bool :=
  match v with
  | Undefined => false
  | Val JNull => false
  | Val (JBool b) => b
  | Val (JNum q) => negb (Qeq_bool q 0)
  | Val (JStr s) => match s with [] => false | _ => true end
  | Val (JArr _) => true
  | Val (JObj _) => true
  end.

(** Own property of an object parsed by [JSON.parse]: when a key is
    repeated, the last occurrence wins. *)
Fixpoint lookup_last (k : jstr) (kvs : list (jstr * json)) : jsval :=
  match kvs with
  | [] => Undefined
  | (k', v) :: rest =>
      match lookup_last k rest with
      | Undefined => if decide (k = k') then Val v else Undefined
      | found => found
      end
  end.

(** Property access [parsed.key]: [None] is the [TypeError] raised on
    [null]; strings, numbers, booleans and arrays have no [uid] or [data]
    property, so they read [undefined]. *)
Definition get_prop (parsed : json) (k : jstr) : option jsval :=
  match parsed with
  | JNull => None
  | JObj kvs => Some (lookup_last k kvs)
  | _ => Some Undefined
  end.

(** ** String helpers *)

Definition backtick : ascii := "`"%char.

(** [String.prototype.trim]: the white space and line terminators among
    the first 256 code units (TAB, LF, VT, FF, CR, SPACE, NBSP). *)
Definition is_js_space (c : ascii) : bool :=
  match nat_of_ascii c with
  | 9 | 10 | 11 | 12 | 13 | 32 | 160 => true
  | _ => false
  end.

Fixpoint drop_space (s : jstr) : jstr :=
  match s with
  | [] => []
  | c :: rest => if is_js_space c then drop_space rest else s
  end.

Definition trim (s : jstr) : jstr := rev (drop_space (rev (drop_space s))).

(** [p] is a prefix of [s]. *)
Fixpoint list_prefix_eqb (p s : jstr) : bool :=
  match p, s with
  | [], _ => true
  | a :: p', b :: s' => Ascii.eqb a b && list_prefix_eqb p' s'
  | _ :: _, [] => false
  end.

(** [`__UICP_BLOCK_${n}__`] *)
Definition placeholder (n : nat) : jstr :=
  list_ascii_of_string "__UICP_BLOCK_"
  ++ list_ascii_of_string (NilZero.string_of_uint (Nat.to_uint n))
  ++ list_ascii_of_string "__".

(** ** The extractor (src/packages/tools/README.md,
    [processStreamingContent]). *)

(** The [stage] field of [InternalState]: ['none'], ['backtick1'],
    ['backtick2'], ['backtick3'], ['u'], ['ui'], ['uic'], ['uicp'],
    ['in_block'], ['closing1'], ['closing2'], ['closing3']. *)
Inductive stage : Type :=
| st_none
| st_backtick1
| st_backtick2
| st_backtick3
| st_u
| st_ui
| st_uic
| st_uicp
| st_in_block
| st_closing1
| st_closing2
| st_closing3.

Definition stage_eqb (a b : stage) : bool :=
  match a, b with
  | st_none, st_none | st_backtick1, st_backtick1
  | st_backtick2, st_backtick2 | st_backtick3, st_backtick3
  | st_u, st_u | st_ui, st_ui | st_uic, st_uic | st_uicp, st_uicp
  | st_in_block, st_in_block | st_closing1, st_closing1
  | st_closing2, st_closing2 | st_closing3, st_closing3 => true
  | _, _ => false
  end.

(** What the extractor writes to the console: [console.warn] with the
    parsed value, or [console.error] after an exception. *)
Inductive diagnostic : Type :=
| WarnInvalidStructure (parsed : json)
| ErrorParseFailed.

(** [InternalState], with the console output threaded alongside. *)
Record InternalState : Type := mkInternal {
  istage : stage;
  ibuffer : jstr;
  idisplayContent : jstr;
  icompletedBlocks : list json;
  iblockContent : jstr;
  iconsole : list diagnostic
}.

(** The returned [StreamingParserState]. *)
Record StreamingParserState : Type := mkStreaming {
  displayContent : jstr;
  hasPendingBlock : bool;
  isInUICPBlock : bool;
  completedBlocks : list json;
  buffer : jstr
}.

Definition createStreamingParserState : StreamingParserState :=
  mkStreaming [] false false [] [].

Definition initial_internal : InternalState :=
  mkInternal st_none [] [] [] [] [].

Section Extractor.

(** [JSON.parse]: [None] when it throws a [SyntaxError]. *)
Variable JSON_parse : jstr -> option json.

(** Internal state updates used by the loop body. *)
Definition set_stage (st : InternalState) (s : stage) : InternalState :=
  mkInternal s (ibuffer st) (idisplayContent st) (icompletedBlocks st)
    (iblockContent st) (iconsole st).

(** [state.stage = s; state.buffer += char] *)
Definition push_buffer (st : InternalState) (s : stage) (c : ascii) : InternalState :=
  mkInternal s (ibuffer st ++ [c]) (idisplayContent st) (icompletedBlocks st)
    (iblockContent st) (iconsole st).

(** [state.displayContent += state.buffer + char; state.buffer = '';
    state.stage = 'none'] *)
Definition release (st : InternalState) (c : ascii) : InternalState :=
  mkInternal st_none [] (idisplayContent st ++ ibuffer st ++ [c])
    (icompletedBlocks st) (iblockContent st) (iconsole st).

(** [state.blockContent += text; state.stage = s] *)
Definition push_body (st : InternalState) (s : stage) (text : jstr) : InternalState :=
  mkInternal s (ibuffer st) (idisplayContent st) (icompletedBlocks st)
    (iblockContent st ++ text) (iconsole st).

(** [state.displayContent += text] *)
Definition emit (st : InternalState) (text : jstr) : InternalState :=
  mkInternal (istage st) (ibuffer st) (idisplayContent st ++ text)
    (icompletedBlocks st) (iblockContent st) (iconsole st).

Definition log (st : InternalState) (d : diagnostic) : InternalState :=
  mkInternal (istage st) (ibuffer st) (idisplayContent st)
    (icompletedBlocks st) (iblockContent st) (iconsole st ++ [d]).

(** The [try] block of case ['closing3']: parse the trimmed body, test
    [parsed.uid && parsed.data], push the block and its placeholder or
    log a diagnostic. *)
Definition complete_block (st : InternalState) : InternalState :=
  match JSON_parse (trim (iblockContent st)) with
  | None => log st ErrorParseFailed
  | Some parsed =>
      match get_prop parsed (list_ascii_of_string "uid") with
      | None => log st ErrorParseFailed
      | Some uid =>
          if truthy uid
             && match get_prop parsed (list_ascii_of_string "data") with
                | Some d => truthy d
                | None => false
                end
          then
            let blocks := icompletedBlocks st ++ [parsed] in
            mkInternal (istage st) (ibuffer st)
              (idisplayContent st ++ placeholder (length blocks - 1))
              blocks (iblockContent st) (iconsole st)
          else log st (WarnInvalidStructure parsed)
      end
  end.

(** [char === '\n' || char === ' ' || char === '\t' || char === '\r'] *)
Definition is_block_ws (c : ascii) : bool :=
  Ascii.eqb c (ascii_of_nat 10) || Ascii.eqb c " "%char
  || Ascii.eqb c (ascii_of_nat 9) || Ascii.eqb c (ascii_of_nat 13).

(** One iteration of the [while] loop on character [char]. *)
Definition step (st : InternalState) (char : ascii) : InternalState :=
  let is_bt := Ascii.eqb char backtick in
  match istage st with
  | st_none =>
      if is_bt then mkInternal st_backtick1 [backtick] (idisplayContent st)
                      (icompletedBlocks st) (iblockContent st) (iconsole st)
      else emit st [char]
  | st_backtick1 => if is_bt then push_buffer st st_backtick2 char else release st char
  | st_backtick2 => if is_bt then push_buffer st st_backtick3 char else release st char
  | st_backtick3 =>
      if Ascii.eqb char "u"%char then push_buffer st st_u char
      else if is_bt then push_buffer st st_backtick3 char
      else release st char
  | st_u => if Ascii.eqb char "i"%char then push_buffer st st_ui char else release st char
  | st_ui => if Ascii.eqb char "c"%char then push_buffer st st_uic char else release st char
  | st_uic => if Ascii.eqb char "p"%char then push_buffer st st_uicp char else release st char
  | st_uicp =>
      if is_block_ws char
      then mkInternal st_in_block [] (idisplayContent st) (icompletedBlocks st)
             [] (iconsole st)
      else release st char
  | st_in_block => if is_bt then set_stage st st_closing1 else push_body st st_in_block [char]
  | st_closing1 =>
      if is_bt then set_stage st st_closing2 else push_body st st_in_block [backtick; char]
  | st_closing2 =>
      if is_bt then set_stage st st_closing3
      else push_body st st_in_block [backtick; backtick; char]
  | st_closing3 =>
      let st1 := complete_block st in
      let st2 := mkInternal st_none [] (idisplayContent st1) (icompletedBlocks st1)
                   [] (iconsole st1) in
      if negb is_bt then
        (if is_bt then mkInternal st_backtick1 [backtick] (idisplayContent st2)
                         (icompletedBlocks st2) (iblockContent st2) (iconsole st2)
         else emit st2 [char])
      else st2
  end.

(** The [while] loop over [fullContent]. *)
Fixpoint scan_from (st : InternalState) (s : jstr) : InternalState :=
  match s with
  | [] => st
  | c :: rest => scan_from (step st c) rest
  end.

Definition scan (fullContent : jstr) : InternalState :=
  scan_from initial_internal fullContent.

Definition is_block_stage (s : stage) : bool :=
  match s with
  | st_in_block | st_closing1 | st_closing2 | st_closing3 => true
  | _ => false
  end.

(** [processStreamingContent(currentState, fullContent)]. *)
Definition processStreamingContent (currentState : StreamingParserState)
    (fullContent : jstr) : StreamingParserState :=
  let st := scan fullContent in
  mkStreaming (idisplayContent st)
    (negb (stage_eqb (istage st) st_none))
    (is_block_stage (istage st))
    (icompletedBlocks st)
    (ibuffer st ++ iblockContent st).

(** [parseStreamingContent(fullContent)]. *)
Definition parseStreamingContent (fullContent : jstr) : StreamingParserState :=
  processStreamingContent createStreamingParserState fullContent.

(** ** Reading the input as text characters and blocks

    A block opens with three or more backticks, the tag [uicp] and one
    white-space character, carries a body, and closes with three
    backticks; [swallowed] records that the character read right after
    the closing fence was a backtick. *)

Definition fence_open (k : nat) : jstr :=
  repeat backtick (3 + k) ++ list_ascii_of_string "uicp".

Inductive piece : Type :=
| PText (c : ascii)
| PBlock (k : nat) (w : ascii) (body : jstr) (swallowed : bool).

Definition piece_raw (p : piece) : jstr :=
  match p with
  | PText c => [c]
  | PBlock k w body sw =>
      fence_open k ++ [w] ++ body ++ [backtick; backtick; backtick]
      ++ (if sw then [backtick] else [])
  end.

Definition pieces_raw (ps : list piece) : jstr := concat (map piece_raw ps).

(** The minimal block shape: [parsed.uid] and [parsed.data] are truthy. *)
Definition has_block_shape (parsed : json) : bool :=
  match get_prop parsed (list_ascii_of_string "uid"),
        get_prop parsed (list_ascii_of_string "data") with
  | Some u, Some d => truthy u && truthy d
  | _, _ => false
  end.

(** The block a body yields, if any. *)
Definition block_value (body : jstr) : option json :=
  match JSON_parse (trim body) with
  | Some parsed => if has_block_shape parsed then Some parsed else None
  | None => None
  end.

(** What a piece contributes to the display text and the block list: a
    text character shows as itself; a block with a value is numbered by
    the blocks before it and shows as that placeholder; any other block
    shows as nothing. *)
Definition render_step (acc : jstr * list json) (p : piece) : jstr * list json :=
  match p with
  | PText c => (fst acc ++ [c], snd acc)
  | PBlock _ _ body _ =>
      match block_value body with
      | Some j => (fst acc ++ placeholder (length (snd acc)), snd acc ++ [j])
      | None => acc
      end
  end.

Definition render (ps : list piece) : jstr * list json :=
  fold_left render_step ps ([], []).

(** What the pending part of the input is, seen from the result: nothing
    (and an empty buffer) when no block is pending, the returned
    (non-empty) buffer while the opening fence
    is not yet confirmed, and the opening fence, its white space, the
    body so far (the returned buffer) and up to three closing backticks
    inside a block. *)
Definition pending_tail (r : StreamingParserState) (tail : jstr) : Prop :=
  if negb (hasPendingBlock r) then tail = [] /\ buffer r = []
  else if negb (isInUICPBlock r) then tail = buffer r /\ buffer r <> []
  else exists k w n, is_block_ws w = true /\ n <= 3 /\
         tail = fence_open k ++ [w] ++ buffer r ++ repeat backtick n.



(** How the part of the input after the last text character or block is
    held by the state, per stage. *)
Definition stage_tail (sg : stage) (buf bc tail : jstr) : Prop :=
  match sg with
  | st_none => bc = [] /\ buf = [] /\ tail = []
  | st_backtick1 => bc = [] /\ buf = [backtick] /\ tail = buf
  | st_backtick2 => bc = [] /\ buf = [backtick; backtick] /\ tail = buf
  | st_backtick3 => bc = [] /\ (exists k, buf = repeat backtick (3 + k)) /\ tail = buf
  | st_u => bc = [] /\ (exists k, buf = repeat backtick (3 + k) ++ ["u"%char]) /\ tail = buf
  | st_ui => bc = [] /\ (exists k, buf = repeat backtick (3 + k) ++ ["u"; "i"]%char) /\ tail = buf
  | st_uic =>
      bc = [] /\ (exists k, buf = repeat backtick (3 + k) ++ ["u"; "i"; "c"]%char) /\ tail = buf
  | st_uicp => bc = [] /\ (exists k, buf = fence_open k) /\ tail = buf
  | st_in_block =>
      buf = [] /\ exists k w, is_block_ws w = true /\ tail = fence_open k ++ [w] ++ bc
  | st_closing1 =>
      buf = [] /\ exists k w, is_block_ws w = true
                 /\ tail = fence_open k ++ [w] ++ bc ++ [backtick]
  | st_closing2 =>
      buf = [] /\ exists k w, is_block_ws w = true
                 /\ tail = fence_open k ++ [w] ++ bc ++ [backtick; backtick]
  | st_closing3 =>
      buf = [] /\ exists k w, is_block_ws w = true
                 /\ tail = fence_open k ++ [w] ++ bc ++ [backtick; backtick; backtick]
  end.

(** A block piece opens with a white-space character accepted after the tag. *)
Definition piece_ok (p : piece) : bool :=
  match p with
  | PText _ => true
  | PBlock _ w _ _ => is_block_ws w
  end.

(** The scan invariant: the input read so far is a sequence of pieces,
    rendered as the state's display text and block list, followed by the
    tail the stage holds. *)
Definition scan_inv (consumed : jstr) (st : InternalState) : Prop :=
  exists ps tail,
    consumed = pieces_raw ps ++ tail
    /\ render ps = (idisplayContent st, icompletedBlocks st)
    /\ stage_tail (istage st) (ibuffer st) (iblockContent st) tail
    /\ Forall (fun p => piece_ok p = true) ps.

End Extractor.

(** [mightContainUICPBlock(content)]: [content.includes('`')]. *)
Definition mightContainUICPBlock (content : jstr) : bool :=
  existsb (fun c => Ascii.eqb c backtick) content.

(** The text contains ["```uicp"] followed by a white-space character
    that [processStreamingContent] accepts after the tag. *)
Definition starts_block (s : jstr) : bool :=
  list_prefix_eqb (list_ascii_of_string "```uicp") s
  && match skipn 7 s with
     | w :: _ => is_block_ws w
     | [] => false
     end.

Fixpoint has_block_start (s : jstr) : bool :=
  match s with
  | [] => false
  | _ :: rest => starts_block s || has_block_start rest
  end.

(** The text contains three consecutive backticks. *)
Fixpoint has_fence (s : jstr) : bool :=
  match s with
  | [] => false
  | _ :: rest => list_prefix_eqb [backtick; backtick; backtick] s || has_fence rest
  end.
(** ** [JSON.parse] on the inputs used below.

    A reader for JSON text: objects, arrays, strings (escapes other than
    [\u]), numbers (as exact rationals) and the literals.  It answers
    [None] where [JSON.parse] throws, on the grammar it covers. *)

Definition json_ws (c : ascii) : bool :=
  match nat_of_ascii c with
  | 9 | 10 | 13 | 32 => true
  | _ => false
  end.

Fixpoint skip_ws (s : jstr) : jstr :=
  match s with
  | c :: r => if json_ws c then skip_ws r else s
  | [] => []
  end.

Definition digit_of (c : ascii) : option nat :=
  let n := nat_of_ascii c in
  if (48 <=? n) && (n <=? 57) then Some (n - 48) else None.

(** The longest run of digits at the head of [s]. *)
Fixpoint take_digits (s : jstr) : list nat * jstr :=
  match s with
  | c :: r =>
      match digit_of c with
      | Some d => let '(ds, r') := take_digits r in (d :: ds, r')
      | None => ([], s)
      end
  | [] => ([], [])
  end.

Definition digits_value (ds : list nat) : Z :=
  fold_left (fun acc d => (10 * acc + Z.of_nat d)%Z) ds 0%Z.

(** [-? (0 | [1-9][0-9]* ) (. [0-9]+)? ([eE] [+-]? [0-9]+)?] *)
Definition parse_number (s : jstr) : option (json * jstr) :=
  let '(neg, s1) := match s with
                    | c :: r => if Ascii.eqb c "-"%char then (true, r) else (false, s)
                    | [] => (false, s)
                    end in
  let '(ip, s2) := take_digits s1 in
  match ip with
  | [] => None
  | d0 :: drest =>
      if (d0 =? 0) && negb (length drest =? 0) then None else
      let '(fp, s3, okf) :=
        match s2 with
        | c :: r => if Ascii.eqb c "."%char
                    then let '(fp, r') := take_digits r in (fp, r', negb (length fp =? 0))
                    else ([], s2, true)
        | [] => ([], s2, true)
        end in
      if negb okf then None else
      let '(e, s4, oke) :=
        match s3 with
        | c :: r =>
            if Ascii.eqb c "e"%char || Ascii.eqb c "E"%char then
              let '(eneg, r1) := match r with
                                 | c' :: r' => if Ascii.eqb c' "-"%char then (true, r')
                                               else if Ascii.eqb c' "+"%char then (false, r')
                                               else (false, r)
                                 | [] => (false, r)
                                 end in
              let '(eds, r2) := take_digits r1 in
              ((if eneg then - digits_value eds else digits_value eds)%Z, r2,
               negb (length eds =? 0))
            else (0%Z, s3, true)
        | [] => (0%Z, s3, true)
        end in
      if negb oke then None else
      let mant := digits_value (ip ++ fp) in
      let num := (if neg then - mant else mant)%Z in
      let den := (10 ^ Z.of_nat (length fp))%Z in
      let q := if (0 <=? e)%Z then Qmake (num * 10 ^ e) (Z.to_pos den)
               else Qmake num (Z.to_pos (den * 10 ^ (- e))) in
      Some (JNum q, s4)
  end.

(** The characters of a string literal after its opening quote. *)
Fixpoint parse_string_body (s : jstr) : option (jstr * jstr) :=
  match s with
  | [] => None
  | c :: r =>
      if Ascii.eqb c (ascii_of_nat 34) then Some ([], r)
      else if nat_of_ascii c <? 32 then None
      else if Ascii.eqb c "\"%char then
        match r with
        | e :: r' =>
            let esc := match nat_of_ascii e with
                       | 34 => Some e | 92 => Some e | 47 => Some e
                       | 98 => Some (ascii_of_nat 8) | 102 => Some (ascii_of_nat 12)
                       | 110 => Some (ascii_of_nat 10) | 114 => Some (ascii_of_nat 13)
                       | 116 => Some (ascii_of_nat 9)
                       | _ => None
                       end in
            match esc with
            | Some x => match parse_string_body r' with
                        | Some (t, r'') => Some (x :: t, r'')
                        | None => None
                        end
            | None => None
            end
        | [] => None
        end
      else match parse_string_body r with
           | Some (t, r') => Some (c :: t, r')
           | None => None
           end
  end.

Fixpoint parse_value (fuel : nat) (s : jstr) {struct fuel} : option (json * jstr) :=
  match fuel with
  | O => None
  | S f =>
      let fix elements (n : nat) (s : jstr) (acc : list json)
          : option (list json * jstr) :=
        match n with
        | O => None
        | S n' =>
            match parse_value f s with
            | Some (v, r) =>
                match skip_ws r with
                | c :: r' =>
                    if Ascii.eqb c ","%char then elements n' r' (acc ++ [v])
                    else if Ascii.eqb c "]"%char then Some (acc ++ [v], r')
                    else None
                | [] => None
                end
            | None => None
            end
        end in
      let fix members (n : nat) (s : jstr) (acc : list (jstr * json))
          : option (list (jstr * json) * jstr) :=
        match n with
        | O => None
        | S n' =>
            match skip_ws s with
            | q :: r =>
                if Ascii.eqb q (ascii_of_nat 34) then
                  match parse_string_body r with
                  | Some (k, r1) =>
                      match skip_ws r1 with
                      | colon :: r2 =>
                          if Ascii.eqb colon ":"%char then
                            match parse_value f r2 with
                            | Some (v, r3) =>
                                match skip_ws r3 with
                                | c :: r4 =>
                                    if Ascii.eqb c ","%char then members n' r4 (acc ++ [(k, v)])
                                    else if Ascii.eqb c "}"%char then Some (acc ++ [(k, v)], r4)
                                    else None
                                | [] => None
                                end
                            | None => None
                            end
                          else None
                      | [] => None
                      end
                  | None => None
                  end
                else None
            | [] => None
            end
        end in
      match skip_ws s with
      | [] => None
      | c :: r =>
          if Ascii.eqb c (ascii_of_nat 34) then
            match parse_string_body r with
            | Some (t, r') => Some (JStr t, r')
            | None => None
            end
          else if Ascii.eqb c "["%char then
            match skip_ws r with
            | c' :: r' => if Ascii.eqb c' "]"%char then Some (JArr [], r')
                          else match elements (length s) r [] with
                               | Some (vs, r'') => Some (JArr vs, r'')
                               | None => None
                               end
            | [] => None
            end
          else if Ascii.eqb c "{"%char then
            match skip_ws r with
            | c' :: r' => if Ascii.eqb c' "}"%char then Some (JObj [], r')
                          else match members (length s) r [] with
                               | Some (kvs, r'') => Some (JObj kvs, r'')
                               | None => None
                               end
            | [] => None
            end
          else if list_prefix_eqb (list_ascii_of_string "null") (c :: r)
          then Some (JNull, skipn 4 (c :: r))
          else if list_prefix_eqb (list_ascii_of_string "true") (c :: r)
          then Some (JBool true, skipn 4 (c :: r))
          else if list_prefix_eqb (list_ascii_of_string "false") (c :: r)
          then Some (JBool false, skipn 5 (c :: r))
          else parse_number (c :: r)
      end
  end.

Definition json_parse (s : jstr) : option json :=
  match parse_value (S (length s)) s with
  | Some (v, r) => match skip_ws r with [] => Some v | _ => None end
  | None => None
  end.

(** Test texts: [~] stands for a line feed and ['] for a double quote. *)
Definition txt (s : string) : jstr :=
  map (fun c => if Ascii.eqb c "~"%char then ascii_of_nat 10
                else if Ascii.eqb c "'"%char then ascii_of_nat 34 else c)
      (list_ascii_of_string s).


(** The stages inside a block body before the third closing backtick. *)
Definition body_stage (n : nat) : stage :=
  match n with
  | 0 => st_in_block
  | 1 => st_closing1
  | _ => st_closing2
  end.


(** ** Concrete inputs *)

(** A text ending exactly at the third closing backtick of a block. *)
Definition closed_block_text : jstr :=
  txt "```uicp~{'uid':'X','data':{'a':1}}~```".


(** A line feed, the white space after the tag in the texts below. *)
Definition line_feed : ascii := ascii_of_nat 10.

(** The scenario of the spec. *)
Definition hello_text : jstr :=
  txt "Hello ```uicp~{'uid':'X','data':{'a':1}}~``` world".

(** A body that is not JSON, followed by ordinary text. *)
Definition bad_body_text : jstr := txt "Hi ```uicp~not json~``` there".

Definition run (s : jstr) : StreamingParserState := parseStreamingContent json_parse s.

(** ** The definitions cache (src/packages/parser/src/definitions-loader.ts) *)
Module DefinitionsCache.

(** A [Definitions] document, as read from JSON. *)
Abbreviation Definitions := json.

(** [source: string | Definitions] *)
Inductive source : Type :=
| SrcString (s : string)
| SrcObject (d : Definitions).

(** The values of [definitionsCache]. *)
Record entry : Type := mkEntry { data : Definitions; timestamp : Z }.

(** The module's [definitionsCache] together with the sources passed to
    [loadDefinitions] so far (the underlying loads). *)
Record cache_state : Type := mkCache {
  definitionsCache : gmap string entry;
  loads : list string
}.

(** The world seen by one call: [Date.now()] at the cache check and at the
    store after [await loadDefinitions(source)], and what that load
    yields ([None] when it rejects). *)
Record call_env : Type := mkEnv {
  now_check : Z;
  now_store : Z;
  loadDefinitions : string -> option Definitions
}.

(** [const data = await loadDefinitions(source);
    definitionsCache.set(source, { data, timestamp: Date.now() })]: a
    rejected load propagates before anything is stored. *)
Definition load_fresh (env : call_env) (s : string) (st : cache_state)
    : option Definitions * cache_state :=
  let st' := mkCache (definitionsCache st) (loads st ++ [s]) in
  match loadDefinitions env s with
  | None => (None, st')
  | Some d =>
      (Some d, mkCache (<[s := mkEntry d (now_store env)]> (definitionsCache st'))
                 (loads st'))
  end.

(** The outcome of the returned promise: [Some d] resolves to [d], [None]
    rejects with the load error. *)
Definition loadDefinitionsWithCache (env : call_env) (src : source) (ttl : Z)
    (st : cache_state) : option Definitions * cache_state :=
  match src with
  | SrcObject d => (Some d, st)
  | SrcString s =>
      match definitionsCache st !! s with
      | Some cached =>
          if (now_check env - timestamp cached <? ttl)%Z then (Some (data cached), st)
          else load_fresh env s st
      | None => load_fresh env s st
      end
  end.

(** [clearDefinitionsCache(source?)] *)
Definition clearDefinitionsCache (src : option string) (st : cache_state) : cache_state :=
  match src with
  | Some s => if decide (s = ""%string) then mkCache ∅ (loads st)
              else mkCache (delete s (definitionsCache st)) (loads st)
  | None => mkCache ∅ (loads st)
  end.

End DefinitionsCache.

(** ** The component loader (src/packages/parser/src/loader.ts) *)
Module ComponentLoader.

(** The values a module may export, with [typeof] distinguishing
    functions and objects ([null] has [typeof] ['object']). *)
Inductive export_val : Type :=
| EUndefined
| ENull
| EBool (b : bool)
| ENum (q : Q)
| EStr (s : string)
| EFun (id : nat)
| EObj (id : nat).

Definition truthy_export (v : export_val) : bool :=
  match v with
  | EUndefined | ENull => false
  | EBool b => b
  | ENum q => negb (Qeq_bool q 0)
  | EStr s => negb (String.eqb s "")
  | EFun _ | EObj _ => true
  end.

(** [typeof exp === 'function' || typeof exp === 'object'] *)
Definition function_or_object (v : export_val) : bool :=
  match v with
  | EFun _ | EObj _ | ENull => true
  | _ => false
  end.

(** A module namespace: its exports in order. *)
Abbreviation namespace := (list (string * export_val)).

Definition get_export (m : namespace) (k : string) : export_val :=
  match find (fun kv => String.eqb (fst kv) k) m with
  | Some (_, v) => v
  | None => EUndefined
  end.

(** [Object.values(module).find(...)] *)
Definition find_export (m : namespace) : export_val :=
  match find function_or_object (map snd m) with
  | Some v => v
  | None => EUndefined
  end.

Definition is_word_char (c : ascii) : bool :=
  let n := nat_of_ascii c in
  ((48 <=? n) && (n <=? 57)) || ((65 <=? n) && (n <=? 90))
  || ((97 <=? n) && (n <=? 122)) || (n =? 95).

(** [s.split('/').pop()] *)
Fixpoint last_segment_acc (acc : list ascii) (s : list ascii) : list ascii :=
  match s with
  | [] => rev acc
  | c :: r => if Ascii.eqb c "/"%char then last_segment_acc [] r
              else last_segment_acc (c :: acc) r
  end.

(** [s.replace(/\.\w+$/, '')]: the match is a dot followed by one or more
    word characters up to the end, so only the last dot can start it. *)
Fixpoint strip_extension (s : list ascii) : list ascii :=
  match s with
  | [] => []
  | c :: r =>
      if Ascii.eqb c "."%char && negb (length r =? 0) && forallb is_word_char r
      then []
      else c :: strip_extension r
  end.

Definition export_name (componentPath : string) : string :=
  string_of_list_ascii
    (strip_extension (last_segment_acc [] (list_ascii_of_string componentPath))).

(** The registry, the paths handed to [import()] and what went to
    [console.error]. *)
Record loader_state : Type := mkLoader {
  componentRegistry : gmap string export_val;
  imports : list string;
  errors : list string
}.

(** The settled promise of an async function: resolved with a value or
    rejected with an exception. *)
Inductive outcome (A : Type) : Type :=
| Resolved (a : A)
| Rejected.
Arguments Resolved {A} a.
Arguments Rejected {A}.

Definition registerComponent (uid : string) (c : export_val) (st : loader_state)
    : loader_state :=
  mkLoader (<[uid := c]> (componentRegistry st)) (imports st) (errors st).

Definition getComponent (uid : string) (st : loader_state) : export_val :=
  match componentRegistry st !! uid with
  | Some c => c
  | None => EUndefined
  end.

(** [clearRegistry(uid?)]: [if (uid)] is false for [undefined] and for
    the empty string, and both clear the whole registry. *)
Definition clearRegistry (uid : option string) (st : loader_state) : loader_state :=
  match uid with
  | Some u => if decide (u = ""%string) then mkLoader ∅ (imports st) (errors st)
              else mkLoader (delete u (componentRegistry st)) (imports st) (errors st)
  | None => mkLoader ∅ (imports st) (errors st)
  end.

Definition log_error (msg : string) (st : loader_state) : loader_state :=
  mkLoader (componentRegistry st) (imports st) (errors st ++ [msg]).

(** [componentPath.startsWith('/') ? componentPath : `${basePath}/${componentPath}`] *)
Definition full_path (componentPath basePath : string) : string :=
  if String.prefix "/" componentPath then componentPath
  else (basePath ++ "/" ++ componentPath)%string.

(** The [try] block: [None] is an exception (a rejected [import()]),
    [Some r] its normal completion with return value [r]. *)
Definition load_try (import : string -> option namespace) (uid componentPath basePath : string)
    (st : loader_state) : option (option export_val) * loader_state :=
  let fullPath := full_path componentPath basePath in
  let st1 := mkLoader (componentRegistry st) (imports st ++ [fullPath]) (errors st) in
  match import fullPath with
  | None => (None, st1)
  | Some m =>
      let a := get_export m "default" in
      let b := get_export m uid in
      let c := get_export m (export_name componentPath) in
      let component :=
        if truthy_export a then a else if truthy_export b then b
        else if truthy_export c then c else find_export m in
      if negb (truthy_export component) then
        (Some None, log_error "[UICP] No valid component export found" st1)
      else (Some (Some component), registerComponent uid component st1)
  end.

(** [loadComponent(uid, componentPath, basePath)], with [import()]
    resolving to a namespace or rejecting ([None]). *)
Definition loadComponent (import : string -> option namespace)
    (uid componentPath basePath : string) (st : loader_state)
    : outcome (option export_val) * loader_state :=
  let cached := getComponent uid st in
  if truthy_export cached then (Resolved (Some cached), st)
  else
    match load_try import uid componentPath basePath st with
    | (Some r, st') => (Resolved r, st')
    | (None, st') => (Resolved None, log_error "[UICP] Failed to load component" st')
    end.

End ComponentLoader.

(** * Proofs about the extractor *)
Section ExtractorFacts.

Variable JSON_parse : jstr -> option json.

Local Abbreviation step := (step JSON_parse).
Local Abbreviation scan_from := (scan_from JSON_parse).
Local Abbreviation scan := (scan JSON_parse).
Local Abbreviation complete_block := (complete_block JSON_parse).
Local Abbreviation render := (render JSON_parse).
Local Abbreviation render_step := (render_step JSON_parse).
Local Abbreviation block_value := (block_value JSON_parse).
Local Abbreviation scan_inv := (scan_inv JSON_parse).
Local Abbreviation processStreamingContent := (processStreamingContent JSON_parse).

Lemma scan_from_app (st : InternalState) (s1 s2 : jstr) :
  scan_from st (s1 ++ s2) = scan_from (scan_from st s1) s2.
Proof. revert st; induction s1 as [|c s1 IH]; intros st; simpl; auto. Qed.

Lemma render_app (ps1 ps2 : list piece) :
  render (ps1 ++ ps2) = fold_left render_step ps2 (render ps1).
Proof. unfold render. apply fold_left_app. Qed.

Lemma complete_block_render (st : InternalState) (k : nat) (w : ascii) (sw : bool) :
  (idisplayContent (complete_block st), icompletedBlocks (complete_block st))
  = render_step (idisplayContent st, icompletedBlocks st)
      (PBlock k w (iblockContent st) sw).
Proof.
  unfold complete_block, render_step, block_value, has_block_shape.
  destruct (JSON_parse (trim (iblockContent st))) as [parsed|]; [|reflexivity].
  destruct parsed; simpl; try reflexivity.
  repeat match goal with
         | |- context [if ?b then _ else _] => destruct b
         end; simpl; try reflexivity.
  rewrite length_app; simpl. do 3 f_equal. lia.
Qed.

Lemma complete_block_blocks (st : InternalState) :
  icompletedBlocks (complete_block st) = icompletedBlocks st
  \/ exists j, has_block_shape j = true
       /\ icompletedBlocks (complete_block st) = icompletedBlocks st ++ [j].
Proof.
  pose proof (complete_block_render st 0 backtick false) as H.
  unfold render_step, block_value in H.
  destruct (JSON_parse (trim (iblockContent st))) as [parsed|]; simpl in H.
  - destruct (has_block_shape parsed) eqn:Hs; injection H as _ H; rewrite H; eauto.
  - injection H as _ H; rewrite H; auto.
Qed.

(** Every step keeps the completed blocks and may append one block of the
    minimal shape. *)
Lemma step_blocks (st : InternalState) (c : ascii) :
  icompletedBlocks (step st c) = icompletedBlocks st
  \/ exists j, has_block_shape j = true
       /\ icompletedBlocks (step st c) = icompletedBlocks st ++ [j].
Proof.
  unfold step.
  destruct (istage st); simpl;
    repeat match goal with
           | |- context [if ?b then _ else _] => destruct b
           end; simpl; auto;
    apply complete_block_blocks.
Qed.

Lemma scan_from_blocks_prefix (st : InternalState) (s : jstr) :
  exists extra, icompletedBlocks (scan_from st s) = icompletedBlocks st ++ extra
                /\ Forall (fun j => has_block_shape j = true) extra.
Proof.
  revert st; induction s as [|c s IH]; intros st; simpl.
  - exists []. rewrite app_nil_r. auto.
  - destruct (IH (step st c)) as [extra [He Hf]].
    destruct (step_blocks st c) as [Hb | [j [Hj Hb]]]; rewrite Hb in He.
    + exists extra; auto.
    + exists (j :: extra). rewrite <- app_assoc in He. auto.
Qed.

Lemma pieces_raw_app (ps qs : list piece) :
  pieces_raw (ps ++ qs) = pieces_raw ps ++ pieces_raw qs.
Proof. unfold pieces_raw. rewrite map_app, concat_app. reflexivity. Qed.

Lemma pieces_raw_texts (l : jstr) : pieces_raw (map PText l) = l.
Proof. induction l as [|c l IH]; simpl; [reflexivity|]. unfold pieces_raw in *. simpl. now rewrite IH. Qed.

Lemma pieces_raw_one (p : piece) : pieces_raw [p] = piece_raw p.
Proof. unfold pieces_raw. simpl. apply app_nil_r. Qed.

Lemma render_texts (acc : jstr * list json) (l : jstr) :
  fold_left render_step (map PText l) acc = (fst acc ++ l, snd acc).
Proof.
  revert acc; induction l as [|c l IH]; intros [d bs]; simpl.
  - now rewrite app_nil_r.
  - rewrite IH. simpl. now rewrite <- app_assoc.
Qed.

Lemma forall_app_texts (ps : list piece) (l : jstr) :
  Forall (fun p => piece_ok p = true) ps ->
  Forall (fun p => piece_ok p = true) (ps ++ map PText l).
Proof.
  intros H. apply Forall_app; split; [exact H|].
  induction l as [|c l IH]; simpl; constructor; auto.
Qed.

(** Releasing the buffer of an opening stage together with the current
    character turns them into text characters. *)
Lemma inv_release (consumed : jstr) (st : InternalState) (c : ascii)
    (ps : list piece) :
  consumed = pieces_raw ps ++ ibuffer st ->
  render ps = (idisplayContent st, icompletedBlocks st) ->
  Forall (fun p => piece_ok p = true) ps ->
  iblockContent st = [] ->
  scan_inv (consumed ++ [c]) (release st c).
Proof.
  intros Hc Hr Hf Hb.
  exists (ps ++ map PText (ibuffer st ++ [c])), []. simpl. split; [|split; [|split]].
  - rewrite pieces_raw_app, pieces_raw_texts, Hc. now rewrite !app_nil_r, app_assoc.
  - rewrite render_app, Hr, render_texts. reflexivity.
  - auto.
  - apply forall_app_texts. auto.
Qed.

Lemma inv_push (consumed : jstr) (st : InternalState) (c : ascii)
    (ps : list piece) (tail : jstr) (sg : stage) (bc : jstr) :
  consumed = pieces_raw ps ++ tail ->
  render ps = (idisplayContent st, icompletedBlocks st) ->
  Forall (fun p => piece_ok p = true) ps ->
  stage_tail sg (ibuffer st) bc (tail ++ [c]) ->
  scan_inv (consumed ++ [c])
    (mkInternal sg (ibuffer st) (idisplayContent st) (icompletedBlocks st) bc (iconsole st)).
Proof.
  intros Hc Hr Hf Ht. exists ps, (tail ++ [c]). simpl.
  rewrite Hc, app_assoc. auto.
Qed.

Lemma inv_push_buffer (consumed : jstr) (st : InternalState) (c : ascii)
    (ps : list piece) (sg : stage) :
  consumed = pieces_raw ps ++ ibuffer st ->
  render ps = (idisplayContent st, icompletedBlocks st) ->
  Forall (fun p => piece_ok p = true) ps ->
  stage_tail sg (ibuffer st ++ [c]) (iblockContent st) (ibuffer st ++ [c]) ->
  scan_inv (consumed ++ [c]) (push_buffer st sg c).
Proof.
  intros Hc Hr Hf Ht. exists ps, (ibuffer st ++ [c]). simpl.
  rewrite Hc, app_assoc. auto.
Qed.

Ltac conj_split := repeat match goal with |- _ /\ _ => split end.

Ltac list_norm :=
  simpl; repeat (rewrite <- app_assoc || rewrite <- app_comm_cons); simpl.

Ltac char_case c x := destruct (Ascii.eqb_spec c x) as [->|?]; simpl.

(** One loop iteration preserves the scan invariant. *)
Lemma inv_step (consumed : jstr) (st : InternalState) (c : ascii) :
  scan_inv consumed st ->
  scan_inv (consumed ++ [c]) (step st c).
Proof.
  intros (ps & tail & Hc & Hr & Ht & Hf).
  destruct st as [sg buf d bs bc con]; simpl in Hr, Ht |- *.
  destruct sg; unfold step; simpl.
  - (* none *)
    destruct Ht as [-> [-> ->]]. rewrite app_nil_r in Hc. subst consumed.
    char_case c backtick.
    + exists ps, [backtick]. simpl. conj_split; auto.
    + exists (ps ++ [PText c]), []. simpl. rewrite pieces_raw_app, render_app, Hr.
      conj_split; auto.
      * now rewrite app_nil_r.
      * apply (forall_app_texts ps [c]). auto.
  - (* backtick1 *)
    destruct Ht as [-> [-> ->]]. char_case c backtick.
    + apply (inv_push_buffer _ (mkInternal _ [backtick] d bs [] con) _ ps); simpl; auto.
    + apply (inv_release _ (mkInternal _ [backtick] d bs [] con) _ ps); simpl; auto.
  - (* backtick2 *)
    destruct Ht as [-> [-> ->]]. char_case c backtick.
    + apply (inv_push_buffer _ (mkInternal _ [backtick; backtick] d bs [] con) _ ps);
        simpl; auto. conj_split; auto. exists 0. reflexivity.
    + apply (inv_release _ (mkInternal _ [backtick; backtick] d bs [] con) _ ps); simpl; auto.
  - (* backtick3 *)
    destruct Ht as [-> [[k ->] ->]]. char_case c "u"%char.
    + apply (inv_push_buffer _ (mkInternal _ _ d bs [] con) _ ps); simpl; eauto.
    + char_case c backtick.
      * apply (inv_push_buffer _ (mkInternal _ _ d bs [] con) _ ps); simpl; auto.
        conj_split; auto. exists (S k). now rewrite <- repeat_cons.
      * apply (inv_release _ (mkInternal _ _ d bs [] con) _ ps); simpl; auto.
  - (* u *)
    destruct Ht as [-> [[k ->] ->]]. char_case c "i"%char.
    + apply (inv_push_buffer _ (mkInternal _ _ d bs [] con) _ ps); simpl; auto.
      conj_split; auto. exists k. now rewrite <- app_assoc.
    + apply (inv_release _ (mkInternal _ _ d bs [] con) _ ps); simpl; auto.
  - (* ui *)
    destruct Ht as [-> [[k ->] ->]]. char_case c "c"%char.
    + apply (inv_push_buffer _ (mkInternal _ _ d bs [] con) _ ps); simpl; auto.
      conj_split; auto. exists k. now rewrite <- app_assoc.
    + apply (inv_release _ (mkInternal _ _ d bs [] con) _ ps); simpl; auto.
  - (* uic *)
    destruct Ht as [-> [[k ->] ->]]. char_case c "p"%char.
    + apply (inv_push_buffer _ (mkInternal _ _ d bs [] con) _ ps); simpl; auto.
      conj_split; auto. exists k. unfold fence_open. now rewrite <- app_assoc.
    + apply (inv_release _ (mkInternal _ _ d bs [] con) _ ps); simpl; auto.
  - (* uicp *)
    destruct Ht as [-> [[k ->] ->]]. destruct (is_block_ws c) eqn:Hw.
    + exists ps, (fence_open k ++ [c]). simpl. conj_split; auto.
      * rewrite Hc. now rewrite <- app_assoc.
      * exists k, c. auto.
    + apply (inv_release _ (mkInternal _ _ d bs [] con) _ ps); simpl; auto.
  - (* in_block *)
    destruct Ht as [-> [k [w [Hw ->]]]]. char_case c backtick.
    + apply (inv_push _ (mkInternal _ [] d bs bc con) _ ps (fence_open k ++ [w] ++ bc)
               _ bc); simpl; auto.
      conj_split; auto. exists k, w. split; auto.
      unfold fence_open; list_norm; reflexivity.
    + apply (inv_push _ (mkInternal _ [] d bs bc con) _ ps (fence_open k ++ [w] ++ bc)
               _ (bc ++ [c])); simpl; auto.
      conj_split; auto. exists k, w. split; auto.
      unfold fence_open; list_norm; reflexivity.
  - (* closing1 *)
    destruct Ht as [-> [k [w [Hw ->]]]]. char_case c backtick.
    + apply (inv_push _ (mkInternal _ [] d bs bc con) _ ps
               (fence_open k ++ [w] ++ bc ++ [backtick]) _ bc); simpl; auto.
      conj_split; auto. exists k, w. split; auto.
      unfold fence_open; list_norm; reflexivity.
    + apply (inv_push _ (mkInternal _ [] d bs bc con) _ ps
               (fence_open k ++ [w] ++ bc ++ [backtick]) _ (bc ++ [backtick; c]));
        simpl; auto.
      conj_split; auto. exists k, w. split; auto.
      unfold fence_open; list_norm; reflexivity.
  - (* closing2 *)
    destruct Ht as [-> [k [w [Hw ->]]]]. char_case c backtick.
    + apply (inv_push _ (mkInternal _ [] d bs bc con) _ ps
               (fence_open k ++ [w] ++ bc ++ [backtick; backtick]) _ bc); simpl; auto.
      conj_split; auto. exists k, w. split; auto.
      unfold fence_open; list_norm; reflexivity.
    + apply (inv_push _ (mkInternal _ [] d bs bc con) _ ps
               (fence_open k ++ [w] ++ bc ++ [backtick; backtick]) _
               (bc ++ [backtick; backtick; c])); simpl; auto.
      conj_split; auto. exists k, w. split; auto.
      unfold fence_open; list_norm; reflexivity.
  - (* closing3 *)
    destruct Ht as [-> [k [w [Hw ->]]]]. subst consumed.
    pose proof (complete_block_render (mkInternal st_closing3 [] d bs bc con) k w)
      as Hcb.
    cbn [idisplayContent icompletedBlocks iblockContent] in Hcb.
    char_case c backtick.
    + exists (ps ++ [PBlock k w bc true]), []. simpl. conj_split.
      * rewrite app_nil_r, pieces_raw_app, pieces_raw_one.
        unfold piece_raw, fence_open. list_norm. reflexivity.
      * rewrite render_app, Hr. exact (eq_sym (Hcb true)).
      * reflexivity.
      * reflexivity.
      * reflexivity.
      * apply Forall_app; split; auto.
    + exists (ps ++ [PBlock k w bc false; PText c]), []. simpl. conj_split.
      * rewrite app_nil_r, pieces_raw_app.
        change (pieces_raw [PBlock k w bc false; PText c])
          with (piece_raw (PBlock k w bc false) ++ [c]).
        unfold piece_raw, fence_open. list_norm. reflexivity.
      * rewrite render_app, Hr.
        transitivity (fst (render_step (d, bs) (PBlock k w bc false)) ++ [c],
                      snd (render_step (d, bs) (PBlock k w bc false))); [reflexivity|].
        rewrite <- (Hcb false). reflexivity.
      * reflexivity.
      * reflexivity.
      * reflexivity.
      * apply Forall_app; split; auto.
Qed.

Lemma inv_scan_from (consumed : jstr) (st : InternalState) (s : jstr) :
  scan_inv consumed st ->
  scan_inv (consumed ++ s) (scan_from st s).
Proof.
  revert consumed st; induction s as [|c s IH]; intros consumed st H; simpl.
  - now rewrite app_nil_r.
  - replace (consumed ++ c :: s) with ((consumed ++ [c]) ++ s)
      by now rewrite <- app_assoc.
    apply IH, inv_step, H.
Qed.

Lemma inv_scan (s : jstr) : scan_inv s (scan s).
Proof.
  apply (inv_scan_from [] initial_internal s).
  exists [], []. simpl. unfold render. simpl. auto 10.
Qed.

Lemma stage_tail_pending (sg : stage) (buf bc tail d : jstr) (bs : list json) :
  stage_tail sg buf bc tail ->
  pending_tail (mkStreaming d (negb (stage_eqb sg st_none)) (is_block_stage sg) bs (buf ++ bc))
    tail.
Proof.
  unfold pending_tail.
  destruct sg; simpl.
  - intros [-> [-> ->]]. auto.
  - intros [-> [-> ->]]. split; [reflexivity|discriminate].
  - intros [-> [-> ->]]. split; [reflexivity|discriminate].
  - intros [-> [[k ->] ->]]. rewrite app_nil_r. split; [reflexivity|simpl; discriminate].
  - intros [-> [[k ->] ->]]. rewrite app_nil_r. split; [reflexivity|simpl; discriminate].
  - intros [-> [[k ->] ->]]. rewrite app_nil_r. split; [reflexivity|simpl; discriminate].
  - intros [-> [[k ->] ->]]. rewrite app_nil_r. split; [reflexivity|simpl; discriminate].
  - intros [-> [[k ->] ->]]. rewrite app_nil_r. split; [reflexivity|simpl; discriminate].
  - intros [-> [k [w [Hw ->]]]]. exists k, w, 0. split; [exact Hw|split; [lia|]].
    simpl. now rewrite app_nil_r.
  - intros [-> [k [w [Hw ->]]]]. exists k, w, 1. split; [exact Hw|split; [lia|]].
    reflexivity.
  - intros [-> [k [w [Hw ->]]]]. exists k, w, 2. split; [exact Hw|split; [lia|]].
    reflexivity.
  - intros [-> [k [w [Hw ->]]]]. exists k, w, 3. split; [exact Hw|split; [lia|]].
    reflexivity.
Qed.

(** The result read as pieces: every input character is a text
    character, part of a block, or part of the pending tail. *)
Lemma decomposition (cs : StreamingParserState) (s : jstr) :
  let r := processStreamingContent cs s in
  exists ps tail,
    s = pieces_raw ps ++ tail
    /\ render ps = (displayContent r, completedBlocks r)
    /\ pending_tail r tail
    /\ Forall (fun p => piece_ok p = true) ps.
Proof.
  destruct (inv_scan s) as (ps & tail & Hc & Hr & Ht & Hok).
  exists ps, tail. unfold processStreamingContent.
  simpl. split; [exact Hc|]. split; [exact Hr|]. split; [|exact Hok].
  apply stage_tail_pending. exact Ht.
Qed.

Lemma list_prefix_eqb_app (p x y : jstr) :
  list_prefix_eqb p x = true -> list_prefix_eqb p (x ++ y) = true.
Proof.
  revert x; induction p as [|a p IH]; intros [|b x] H; simpl in *; auto; try discriminate.
  apply andb_true_iff in H as [H1 H2]. rewrite H1. simpl. auto.
Qed.

Lemma has_fence_app_r (x y : jstr) : has_fence y = true -> has_fence (x ++ y) = true.
Proof.
  induction x as [|a x IH]; cbn [app has_fence]; auto.
  intros H. rewrite IH by exact H. apply orb_true_r.
Qed.

Lemma has_fence_app_l (x y : jstr) : has_fence x = true -> has_fence (x ++ y) = true.
Proof.
  induction x as [|a x IH]; cbn [app has_fence]; [discriminate|].
  intros H. apply orb_true_iff in H as [H|H].
  - change (a :: x ++ y) with ((a :: x) ++ y).
    rewrite (list_prefix_eqb_app _ (a :: x) y H). reflexivity.
  - rewrite IH by exact H. apply orb_true_r.
Qed.

Lemma has_fence_cons (a : ascii) (x : jstr) : has_fence (a :: x) = false -> has_fence x = false.
Proof. cbn [has_fence]. intros H. apply orb_false_iff in H. apply H. Qed.

Lemma scan_backticks (k : nat) (buf d bc : jstr) (bs : list json) (con : list diagnostic)
    (rest : jstr) :
  scan_from (mkInternal st_backtick3 buf d bs bc con) (repeat backtick k ++ rest)
  = scan_from (mkInternal st_backtick3 (buf ++ repeat backtick k) d bs bc con) rest.
Proof.
  revert buf; induction k as [|k IH]; intros buf; simpl.
  - now rewrite app_nil_r.
  - unfold step. simpl. unfold push_buffer. simpl. rewrite IH. now rewrite <- app_assoc.
Qed.

(** From outside any block, an opening fence and its white space lead
    into an empty block body and change nothing else. *)
Lemma scan_open (st : InternalState) (k : nat) (w : ascii) :
  istage st = st_none -> is_block_ws w = true ->
  scan_from st (fence_open k ++ [w])
  = mkInternal st_in_block [] (idisplayContent st) (icompletedBlocks st) []
      (iconsole st).
Proof.
  intros Hs Hw. destruct st as [sg buf d bs bc con]; simpl in Hs; subst sg.
  unfold fence_open. rewrite <- app_assoc.
  change (repeat backtick (3 + k)) with ([backtick; backtick; backtick] ++ repeat backtick k).
  rewrite <- app_assoc, scan_from_app.
  change (scan_from _ [backtick; backtick; backtick])
    with (mkInternal st_backtick3 [backtick; backtick; backtick] d bs bc con).
  rewrite scan_backticks. cbn. rewrite Hw. reflexivity.
Qed.

(** Inside a block, a text with no three consecutive backticks (counting
    the closing backticks already read) keeps the scan inside the body
    and only extends the body. *)
Lemma scan_body (b : jstr) (n : nat) (st : InternalState) :
  n <= 2 -> istage st = body_stage n ->
  has_fence (repeat backtick n ++ b) = false ->
  exists m, m <= 2
    /\ scan_from st b
       = mkInternal (body_stage m) (ibuffer st) (idisplayContent st) (icompletedBlocks st)
           (iblockContent (scan_from st b)) (iconsole st)
    /\ iblockContent st ++ repeat backtick n ++ b
       = iblockContent (scan_from st b) ++ repeat backtick m.
Proof.
  revert n st; induction b as [|c b IH]; intros n st Hn Hs Hf; simpl.
  - exists n. split; [exact Hn|]. split; [|now rewrite app_nil_r].
    destruct st; simpl in *; now subst.
  - destruct st as [sg buf d bs bc con]; simpl in Hs; subst sg.
    change (scan_from ?st (c :: b)) with (scan_from (step st c) b).
    destruct n as [|[|[|n]]]; try lia; unfold step; cbn [body_stage istage];
      destruct (Ascii.eqb_spec c backtick) as [->|Hc]; simpl.
    + destruct (IH 1 (mkInternal st_closing1 buf d bs bc con)) as (m & Hm & Heq & Hb);
        [lia|reflexivity|exact Hf|].
      exists m. split; [exact Hm|]. split; [exact Heq|]. exact Hb.
    + destruct (IH 0 (mkInternal st_in_block buf d bs (bc ++ [c]) con))
        as (m & Hm & Heq & Hb); [lia|reflexivity|eapply has_fence_cons; exact Hf|].
      exists m. split; [exact Hm|]. split; [exact Heq|]. simpl in Hb.
      first [exact Hb | rewrite <- app_assoc in Hb; exact Hb].
    + destruct (IH 2 (mkInternal st_closing2 buf d bs bc con)) as (m & Hm & Heq & Hb);
        [lia|reflexivity|exact Hf|].
      exists m. split; [exact Hm|]. split; [exact Heq|]. simpl in Hb.
      first [exact Hb | rewrite <- app_assoc in Hb; exact Hb].
    + destruct (IH 0 (mkInternal st_in_block buf d bs (bc ++ [backtick; c]) con))
        as (m & Hm & Heq & Hb); [lia|reflexivity|do 2 eapply has_fence_cons; exact Hf|].
      exists m. split; [exact Hm|]. split; [exact Heq|]. simpl in Hb.
      first [exact Hb | rewrite <- app_assoc in Hb; exact Hb].
    + simpl in Hf. discriminate.
    + destruct (IH 0 (mkInternal st_in_block buf d bs (bc ++ [backtick; backtick; c]) con))
        as (m & Hm & Heq & Hb); [lia|reflexivity|do 3 eapply has_fence_cons; exact Hf|].
      exists m. split; [exact Hm|]. split; [exact Heq|]. simpl in Hb.
      first [exact Hb | rewrite <- app_assoc in Hb; exact Hb].
Qed.





Lemma has_block_start_app_r (x y : jstr) :
  has_block_start y = true -> has_block_start (x ++ y) = true.
Proof.
  induction x as [|a x IH]; cbn [app has_block_start]; auto.
  intros H. rewrite IH by exact H. apply orb_true_r.
Qed.

Lemma fence_open_split (k : nat) :
  fence_open k = repeat backtick k ++ list_ascii_of_string "```uicp".
Proof.
  unfold fence_open. induction k as [|k IH]; [reflexivity|].
  change (repeat backtick (3 + S k)) with (backtick :: repeat backtick (3 + k)).
  simpl. f_equal. exact IH.
Qed.

(** An opening fence with its white space is a block start. *)
Lemma has_block_start_fence (k : nat) (w : ascii) (y : jstr) :
  is_block_ws w = true -> has_block_start (fence_open k ++ [w] ++ y) = true.
Proof.
  intros Hw. rewrite fence_open_split, <- app_assoc. apply has_block_start_app_r.
  change (list_ascii_of_string "```uicp" ++ [w] ++ y)
    with (backtick :: (list_ascii_of_string "``uicp" ++ [w] ++ y)).
  cbn [has_block_start].
  replace (starts_block _) with (is_block_ws w) by reflexivity.
  rewrite Hw. reflexivity.
Qed.



Lemma fence_after_backtick (x : jstr) (m : nat) :
  has_fence ((x ++ repeat backtick (S m)) ++ [backtick; backtick]) = true.
Proof.
  change (repeat backtick (S m)) with (backtick :: repeat backtick m).
  rewrite repeat_cons, <- !app_assoc, app_assoc.
  apply has_fence_app_r. reflexivity.
Qed.

Lemma three_backticks (buf d x : jstr) (bs : list json) (con : list diagnostic) :
  scan_from (mkInternal st_in_block buf d bs x con) [backtick; backtick; backtick]
  = mkInternal st_closing3 buf d bs x con.
Proof. reflexivity. Qed.


(** A block stage is never the stage [none]. *)
Lemma flags_consistent (cs : StreamingParserState) (s : jstr) :
  isInUICPBlock (processStreamingContent cs s) = true ->
  hasPendingBlock (processStreamingContent cs s) = true.
Proof.
  unfold processStreamingContent. cbn [isInUICPBlock hasPendingBlock].
  destruct (istage (scan s)); simpl; auto.
Qed.




End ExtractorFacts.

(** * Claims about the extractor *)

(** Claim C1: a block is not complete when its third closing backtick is
    read.  On a text that ends right at the closing fence of a
    well-formed block, [processStreamingContent] returns no block and no
    placeholder and still reports a pending block inside a block; the
    block is completed only once one more character follows. *)
Theorem block_incomplete_at_closing_fence :
  completedBlocks (run closed_block_text) = []
  /\ displayContent (run closed_block_text) = []
  /\ hasPendingBlock (run closed_block_text) = true
  /\ isInUICPBlock (run closed_block_text) = true
  /\ length (completedBlocks (run (closed_block_text ++ [line_feed]))) = 1.
Proof. vm_compute. repeat split. Qed.










(** Claim C5: the result does not depend on the [currentState] argument,
    so two runs on the same text agree on everything; and the blocks
    completed on a text are the first blocks completed on any extension
    of it, in the same order. *)
Theorem extraction_stable (JSON_parse : jstr -> option json)
    (cs1 cs2 : StreamingParserState) (s t : jstr) :
  processStreamingContent JSON_parse cs1 s = processStreamingContent JSON_parse cs2 s
  /\ exists extra,
       completedBlocks (processStreamingContent JSON_parse cs1 (s ++ t))
       = completedBlocks (processStreamingContent JSON_parse cs2 s) ++ extra.
Proof.
  split; [reflexivity|].
  unfold processStreamingContent, scan. cbn [completedBlocks].
  rewrite scan_from_app.
  destruct (scan_from_blocks_prefix JSON_parse (scan_from JSON_parse initial_internal s) t)
    as [extra [He _]].
  exists extra. exact He.
Qed.




(** Claim C7: on the scenario text the display text is
    ["Hello __UICP_BLOCK_0__ world"] and the one completed block is the
    parsed object with [uid] ["X"] and [data.a] 1; in general the
    display text and the block list are the rendering of the input's
    pieces in input order, where the block that is the [n]-th with a
    value shows as [__UICP_BLOCK_n__] and is the [n]-th element of the
    block list. *)
Theorem placeholders_in_block_order :
  displayContent (run hello_text) = txt "Hello __UICP_BLOCK_0__ world"
  /\ completedBlocks (run hello_text)
     = [JObj [(txt "uid", JStr (txt "X")); (txt "data", JObj [(txt "a", JNum 1)])]]
  /\ (forall (JSON_parse : jstr -> option json) (cs : StreamingParserState) (s : jstr),
        exists ps tail,
          s = pieces_raw ps ++ tail
          /\ render JSON_parse ps
             = (displayContent (processStreamingContent JSON_parse cs s),
                completedBlocks (processStreamingContent JSON_parse cs s))).
Proof.
  split; [vm_compute; reflexivity|]. split; [vm_compute; reflexivity|].
  intros JSON_parse cs s.
  destruct (decomposition JSON_parse cs s) as (ps & tail & Hs & Hr & _).
  exists ps, tail. split; assumption.
Qed.

(** Claim C10: every completed block has truthy [uid] and [data], and
    [isInUICPBlock] implies [hasPendingBlock]. *)
Theorem result_invariant (JSON_parse : jstr -> option json)
    (cs : StreamingParserState) (s : jstr) :
  Forall (fun j => has_block_shape j = true)
    (completedBlocks (processStreamingContent JSON_parse cs s))
  /\ implb (isInUICPBlock (processStreamingContent JSON_parse cs s))
       (hasPendingBlock (processStreamingContent JSON_parse cs s)) = true.
Proof.
  split.
  - unfold processStreamingContent, scan. cbn [completedBlocks].
    destruct (scan_from_blocks_prefix JSON_parse initial_internal s) as [extra [He Hf]].
    rewrite He. exact Hf.
  - destruct (isInUICPBlock (processStreamingContent JSON_parse cs s)) eqn:E; [|reflexivity].
    simpl. apply (flags_consistent JSON_parse cs s E).
Qed.

(** * Claims about the definitions cache *)
Module DefinitionsCacheFacts.
Import DefinitionsCache.

(** Claim C8: for a string source, [loadDefinitionsWithCache] returns the
    cached definitions, leaving the state alone, when an entry for that
    exact string exists whose age (the time of the check minus its
    timestamp) is below [ttl]; otherwise it performs a fresh load, which
    adds one underlying load and stores the loaded definitions with the
    time after the load as timestamp.  With [ttl = 0] and a clock that
    never runs backwards it always reloads.  Two calls with [ttl = 1000]
    less than 1000 ms apart issue one load, and a third call 1000 ms or
    more after the store issues a second load. *)
Theorem cache_hit_iff_young_entry (env : call_env) (s : string) (ttl : Z)
    (st : cache_state) :
  (forall e, definitionsCache st !! s = Some e -> (now_check env - timestamp e < ttl)%Z ->
     loadDefinitionsWithCache env (SrcString s) ttl st = (Some (data e), st))
  /\ ((forall e, definitionsCache st !! s = Some e -> (ttl <= now_check env - timestamp e)%Z) ->
      loadDefinitionsWithCache env (SrcString s) ttl st = load_fresh env s st)
  /\ loads (snd (load_fresh env s st)) = loads st ++ [s]
  /\ (forall d, loadDefinitions env s = Some d ->
      load_fresh env s st
      = (Some d, mkCache (<[s := mkEntry d (now_store env)]> (definitionsCache st))
                   (loads st ++ [s])))
  /\ ((forall e, definitionsCache st !! s = Some e -> (timestamp e <= now_check env)%Z) ->
      loadDefinitionsWithCache env (SrcString s) 0 st = load_fresh env s st)
  /\ (forall (load : string -> option Definitions) (d : Definitions) (t1 u1 t2 u2 t3 u3 : Z),
        load s = Some d -> (t2 - u1 < 1000)%Z -> (1000 <= t3 - u1)%Z ->
        loads (snd (loadDefinitionsWithCache (mkEnv t1 u1 load) (SrcString s) 1000
                      (mkCache ∅ []))) = [s]
        /\ loads (snd (loadDefinitionsWithCache (mkEnv t2 u2 load) (SrcString s) 1000
                       (snd (loadDefinitionsWithCache (mkEnv t1 u1 load) (SrcString s) 1000
                               (mkCache ∅ []))))) = [s]
        /\ loads (snd (loadDefinitionsWithCache (mkEnv t3 u3 load) (SrcString s) 1000
                       (snd (loadDefinitionsWithCache (mkEnv t2 u2 load) (SrcString s) 1000
                               (snd (loadDefinitionsWithCache (mkEnv t1 u1 load)
                                       (SrcString s) 1000 (mkCache ∅ []))))))) = [s; s]).
Proof.
  split; [|split; [|split; [|split; [|split]]]].
  - intros e He Hlt. simpl. rewrite He, (proj2 (Z.ltb_lt _ _) Hlt). reflexivity.
  - intros Hge. simpl. destruct (definitionsCache st !! s) as [e|] eqn:E; [|reflexivity].
    rewrite (proj2 (Z.ltb_ge _ _) (Hge e eq_refl)). reflexivity.
  - unfold load_fresh. destruct (loadDefinitions env s); reflexivity.
  - intros d Hd. unfold load_fresh. rewrite Hd. reflexivity.
  - intros Hts. simpl. destruct (definitionsCache st !! s) as [e|] eqn:E; [|reflexivity].
    assert (H0 : (0 <= now_check env - timestamp e)%Z) by (specialize (Hts e eq_refl); lia).
    rewrite (proj2 (Z.ltb_ge _ _) H0). reflexivity.
  - intros load d t1 u1 t2 u2 t3 u3 Hd H2 H3.
    assert (E1 : loadDefinitionsWithCache (mkEnv t1 u1 load) (SrcString s) 1000 (mkCache ∅ [])
                 = (Some d, mkCache (<[s := mkEntry d u1]> ∅) [s])).
    { simpl. rewrite lookup_empty. unfold load_fresh. simpl. rewrite Hd. reflexivity. }
    assert (E2 : loadDefinitionsWithCache (mkEnv t2 u2 load) (SrcString s) 1000
                   (mkCache (<[s := mkEntry d u1]> ∅) [s])
                 = (Some d, mkCache (<[s := mkEntry d u1]> ∅) [s])).
    { simpl. rewrite lookup_insert_eq. simpl. rewrite (proj2 (Z.ltb_lt _ _) H2). reflexivity. }
    assert (E3 : loads (snd (loadDefinitionsWithCache (mkEnv t3 u3 load) (SrcString s) 1000
                               (mkCache (<[s := mkEntry d u1]> ∅) [s]))) = [s; s]).
    { simpl. rewrite lookup_insert_eq. simpl.
      assert (H3' : (1000 <= t3 - u1)%Z) by exact H3.
      rewrite (proj2 (Z.ltb_ge _ _) H3'). unfold load_fresh. simpl.
      destruct (load s); reflexivity. }
    rewrite E1. cbn [snd]. rewrite E2. cbn [snd loads]. split; [reflexivity|]. split; [reflexivity|].
    exact E3.
Qed.

Lemma cache_hit_iff_young_entry_witness :
  (Some JNull = Some JNull /\ (500 - 10 < 1000)%Z /\ (1000 <= 1010 - 10)%Z)
  /\ (loads (snd (loadDefinitionsWithCache (mkEnv 0 10 (fun _ => Some JNull))
                    (SrcString "defs.json") 1000 (mkCache ∅ []))) = ["defs.json"%string]
      /\ loads (snd (loadDefinitionsWithCache (mkEnv 500 500 (fun _ => Some JNull))
                       (SrcString "defs.json") 1000
                       (snd (loadDefinitionsWithCache (mkEnv 0 10 (fun _ => Some JNull))
                               (SrcString "defs.json") 1000 (mkCache ∅ [])))))
         = ["defs.json"%string]
      /\ loads (snd (loadDefinitionsWithCache (mkEnv 1010 1010 (fun _ => Some JNull))
                       (SrcString "defs.json") 1000
                       (snd (loadDefinitionsWithCache (mkEnv 500 500 (fun _ => Some JNull))
                               (SrcString "defs.json") 1000
                               (snd (loadDefinitionsWithCache (mkEnv 0 10 (fun _ => Some JNull))
                                       (SrcString "defs.json") 1000 (mkCache ∅ [])))))))
         = ["defs.json"%string; "defs.json"%string]).
Proof.
  split; [split; [reflexivity|split; lia]|].
  apply (proj2 (proj2 (proj2 (proj2 (proj2
           (cache_hit_iff_young_entry (mkEnv 0 0 (fun _ => None)) "defs.json" 0%Z (mkCache ∅ []))))))
           (fun _ => Some JNull) JNull 0%Z 10%Z 500%Z 500%Z 1010%Z 1010%Z); [reflexivity|lia|lia].
Defined.

End DefinitionsCacheFacts.

(** * Claims about the component loader *)
Module ComponentLoaderFacts.
Import ComponentLoader.

Lemma getComponent_register (uid : string) (c : export_val) (st : loader_state) :
  getComponent uid (registerComponent uid c st) = c.
Proof. unfold getComponent, registerComponent. simpl. rewrite lookup_insert_eq. reflexivity. Qed.

Lemma errors_log_error (msg : string) (st : loader_state) :
  length (errors (log_error msg st)) = S (length (errors st)).
Proof. unfold log_error. simpl. rewrite length_app. simpl. lia. Qed.

(** Claim C9: [loadComponent] always settles its promise normally, never
    with an exception.  A truthy registered component is returned as is,
    with no import.  Otherwise one import of the full path is attempted;
    on success the found component is registered under [uid], so any
    later call returns it from the registry, and it is returned; on any
    failure one error is logged and [null] is returned. *)
Theorem loadComponent_never_throws (import : string -> option namespace)
    (uid componentPath basePath : string) (st : loader_state) :
  (exists r st', loadComponent import uid componentPath basePath st = (Resolved r, st'))
  /\ (truthy_export (getComponent uid st) = true ->
      loadComponent import uid componentPath basePath st
      = (Resolved (Some (getComponent uid st)), st))
  /\ (truthy_export (getComponent uid st) = false ->
      imports (snd (loadComponent import uid componentPath basePath st))
      = imports st ++ [full_path componentPath basePath]
      /\ ((exists c,
             fst (loadComponent import uid componentPath basePath st) = Resolved (Some c)
             /\ truthy_export c = true
             /\ getComponent uid (snd (loadComponent import uid componentPath basePath st)) = c
             /\ (forall p b,
                   loadComponent import uid p b
                     (snd (loadComponent import uid componentPath basePath st))
                   = (Resolved (Some c),
                      snd (loadComponent import uid componentPath basePath st))))
          \/ (fst (loadComponent import uid componentPath basePath st) = Resolved None
              /\ length (errors (snd (loadComponent import uid componentPath basePath st)))
                 = S (length (errors st))))).
Proof.
  unfold loadComponent. destruct (truthy_export (getComponent uid st)) eqn:Ht.
  - split; [eauto|]. split; [reflexivity|discriminate].
  - unfold load_try.
    destruct (import (full_path componentPath basePath)) as [m|] eqn:Hi.
    + set (comp := if truthy_export (get_export m "default") then get_export m "default"
                   else if truthy_export (get_export m uid) then get_export m uid
                   else if truthy_export (get_export m (export_name componentPath))
                   then get_export m (export_name componentPath) else find_export m).
      destruct (truthy_export comp) eqn:Hc; cbn [negb fst snd].
      * split; [eauto|]. split; [discriminate|]. intros _. split; [reflexivity|].
        left. exists comp. rewrite getComponent_register.
        split; [reflexivity|]. split; [exact Hc|]. split; [reflexivity|].
        intros p b. rewrite Hc. reflexivity.
      * split; [eauto|]. split; [discriminate|]. intros _. split; [reflexivity|].
        right. split; [reflexivity|]. etransitivity; [apply errors_log_error|reflexivity].
    + simpl. split; [eauto|]. split; [discriminate|]. intros _. split; [reflexivity|].
      right. split; [reflexivity|]. etransitivity; [apply errors_log_error|reflexivity].
Qed.

Lemma loadComponent_never_throws_witness :
  truthy_export (getComponent "card" (mkLoader ∅ [] [])) = false
  /\ (imports (snd (loadComponent (fun _ => Some [("default"%string, EFun 1)])
                      "card" "Card.tsx" "/components/uicp" (mkLoader ∅ [] [])))
      = imports (mkLoader ∅ [] []) ++ [full_path "Card.tsx" "/components/uicp"]
      /\ ((exists c,
             fst (loadComponent (fun _ => Some [("default"%string, EFun 1)])
                    "card" "Card.tsx" "/components/uicp" (mkLoader ∅ [] []))
             = Resolved (Some c)
             /\ truthy_export c = true
             /\ getComponent "card"
                  (snd (loadComponent (fun _ => Some [("default"%string, EFun 1)])
                          "card" "Card.tsx" "/components/uicp" (mkLoader ∅ [] []))) = c
             /\ (forall p b,
                   loadComponent (fun _ => Some [("default"%string, EFun 1)]) "card" p b
                     (snd (loadComponent (fun _ => Some [("default"%string, EFun 1)])
                             "card" "Card.tsx" "/components/uicp" (mkLoader ∅ [] [])))
                   = (Resolved (Some c),
                      snd (loadComponent (fun _ => Some [("default"%string, EFun 1)])
                             "card" "Card.tsx" "/components/uicp" (mkLoader ∅ [] [])))))
          \/ (fst (loadComponent (fun _ => Some [("default"%string, EFun 1)])
                     "card" "Card.tsx" "/components/uicp" (mkLoader ∅ [] []))
              = Resolved None
              /\ length (errors (snd (loadComponent (fun _ => Some [("default"%string, EFun 1)])
                                        "card" "Card.tsx" "/components/uicp"
                                        (mkLoader ∅ [] []))))
                 = S (length (errors (mkLoader ∅ [] [])))))).
Proof.
  split; [reflexivity|].
  apply (proj2 (proj2 (loadComponent_never_throws (fun _ => Some [("default"%string, EFun 1)])
                         "card" "Card.tsx" "/components/uicp" (mkLoader ∅ [] [])))).
  reflexivity.
Defined.

End ComponentLoaderFacts.

(** * Further properties of the extractor *)
Section ExtractorMore.

Variable JSON_parse : jstr -> option json.
Local Abbreviation step := (step JSON_parse).
Local Abbreviation scan_from := (scan_from JSON_parse).
Local Abbreviation scan := (scan JSON_parse).
Local Abbreviation complete_block := (complete_block JSON_parse).
Local Abbreviation block_value := (block_value JSON_parse).
Local Abbreviation processStreamingContent := (processStreamingContent JSON_parse).
Local Abbreviation parseStreamingContent := (parseStreamingContent JSON_parse).

(** Outside any block, a text without backticks is shown as it is. *)
Lemma scan_plain (st : InternalState) (t : jstr) :
  istage st = st_none -> mightContainUICPBlock t = false -> scan_from st t = emit st t.
Proof.
  revert st; induction t as [|c t IH]; intros st Hs Ht; simpl.
  - destruct st; unfold emit; simpl. now rewrite app_nil_r.
  - cbn [mightContainUICPBlock existsb] in Ht. apply orb_false_iff in Ht as [Hc Ht].
    assert (E : step st c = emit st [c]) by (unfold step; rewrite Hs, Hc; reflexivity).
    rewrite E, IH; [|destruct st; exact Hs|exact Ht].
    destruct st; unfold emit; simpl. now rewrite <- app_assoc.
Qed.

(** At the stage [none] the buffer and the block body are empty. *)
Lemma scan_none_empty (s : jstr) :
  istage (scan s) = st_none -> ibuffer (scan s) = [] /\ iblockContent (scan s) = [].
Proof.
  intros Hs. destruct (inv_scan JSON_parse s) as (ps & tail & _ & _ & Ht & _).
  rewrite Hs in Ht. destruct Ht as (Hbc & Hbuf & _). auto.
Qed.

Lemma pending_false_none (cs : StreamingParserState) (s : jstr) :
  hasPendingBlock (processStreamingContent cs s) = false -> istage (scan s) = st_none.
Proof.
  unfold processStreamingContent. cbn [hasPendingBlock].
  destruct (istage (scan s)); simpl; congruence.
Qed.

Lemma complete_block_display (st : InternalState) :
  exists d, idisplayContent (complete_block st) = idisplayContent st ++ d.
Proof.
  pose proof (complete_block_render JSON_parse st 0 backtick false) as H.
  unfold render_step in H.
  destruct (block_value (iblockContent st)); injection H as H _; rewrite H; eauto.
  exists []. now rewrite app_nil_r.
Qed.

Lemma step_display (st : InternalState) (c : ascii) :
  exists d, idisplayContent (step st c) = idisplayContent st ++ d.
Proof.
  unfold step.
  destruct (istage st); simpl;
    repeat match goal with
           | |- context [if ?b then _ else _] => destruct b
           end; simpl;
    try destruct (complete_block_display st) as [d0 ->];
    first [ exists []; now rewrite app_nil_r
          | eexists; reflexivity
          | eexists; rewrite <- app_assoc; reflexivity ].
Qed.

Lemma scan_from_display (st : InternalState) (s : jstr) :
  exists d, idisplayContent (scan_from st s) = idisplayContent st ++ d.
Proof.
  revert st; induction s as [|c s IH]; intros st; simpl.
  - exists []. now rewrite app_nil_r.
  - destruct (IH (step st c)) as [d1 H1]. destruct (step_display st c) as [d2 H2].
    rewrite H1, H2, <- app_assoc. eauto.
Qed.

(** A body with the minimal block shape is pushed with its placeholder. *)
Lemma complete_block_valid (st : InternalState) (j : json) :
  block_value (iblockContent st) = Some j ->
  complete_block st
  = mkInternal (istage st) (ibuffer st)
      (idisplayContent st ++ placeholder (length (icompletedBlocks st)))
      (icompletedBlocks st ++ [j]) (iblockContent st) (iconsole st).
Proof.
  unfold complete_block, block_value, has_block_shape. intros H.
  destruct (JSON_parse (trim (iblockContent st))) as [p|]; [|discriminate].
  destruct (get_prop p (list_ascii_of_string "uid")) as [u|];
    destruct (get_prop p (list_ascii_of_string "data")) as [dt|];
    try discriminate.
  destruct (truthy u && truthy dt) eqn:E; [|discriminate].
  injection H as <-. rewrite length_app. simpl.
  do 3 f_equal. lia.
Qed.

(** A block with a valid body, read from outside any block up to the
    character after its closing fence. *)
Lemma scan_valid_block_from (st : InternalState) (k : nat) (w : ascii) (body : jstr)
    (c : ascii) (j : json) :
  istage st = st_none -> ibuffer st = [] -> iblockContent st = [] ->
  is_block_ws w = true -> has_fence (body ++ [backtick; backtick]) = false ->
  block_value body = Some j ->
  scan_from st (fence_open k ++ [w] ++ body ++ [backtick; backtick; backtick; c])
  = let st' := mkInternal st_none []
                 (idisplayContent st ++ placeholder (length (icompletedBlocks st)))
                 (icompletedBlocks st ++ [j]) [] (iconsole st) in
    if Ascii.eqb c backtick then st' else emit st' [c].
Proof.
  intros Hs Hbuf Hbc Hw Hf Hv.
  assert (Hf0 : has_fence body = false).
  { destruct (has_fence body) eqn:E; [|reflexivity].
    rewrite (has_fence_app_l _ _ E) in Hf. discriminate. }
  destruct st as [sg buf d bs bc con]; simpl in Hs, Hbuf, Hbc; subst sg buf bc.
  rewrite app_assoc, scan_from_app,
    (scan_open JSON_parse (mkInternal st_none [] d bs [] con) k w eq_refl Hw). simpl.
  rewrite scan_from_app.
  destruct (scan_body JSON_parse body 0 (mkInternal st_in_block [] d bs [] con))
    as (m & Hm & Heq & Hb); [lia|reflexivity|exact Hf0|].
  simpl in Hb. rewrite Heq.
  destruct m as [|m].
  2:{ rewrite Hb, fence_after_backtick in Hf. discriminate. }
  rewrite app_nil_r in Hb.
  set (x := iblockContent (scan_from (mkInternal st_in_block [] d bs [] con) body)) in *.
  pose proof (complete_block_valid (mkInternal st_closing3 [] d bs x con) j) as Hc.
  specialize (Hc ltac:(cbn [iblockContent]; rewrite <- Hb; exact Hv)).
  cbn [body_stage ibuffer idisplayContent icompletedBlocks iconsole].
  change [backtick; backtick; backtick; c] with ([backtick; backtick; backtick] ++ [c]).
  rewrite scan_from_app, three_backticks. cbn [scan_from].
  unfold step. cbn [istage]. rewrite Hc. cbv zeta. cbn [idisplayContent icompletedBlocks iconsole].
  destruct (Ascii.eqb c backtick); reflexivity.
Qed.

Lemma block_ws_not_backtick (w : ascii) : is_block_ws w = true -> Ascii.eqb w backtick = false.
Proof. destruct (Ascii.eqb_spec w backtick) as [->|]; [discriminate|reflexivity]. Qed.

(** X1: once nothing is pending, appending text without a backtick
    extends the display text by exactly that text and changes nothing
    else. *)
Theorem plain_text_extends_display (cs : StreamingParserState) (s t : jstr)
    (Hp : hasPendingBlock (processStreamingContent cs s) = false)
    (Ht : mightContainUICPBlock t = false) :
  processStreamingContent cs (s ++ t)
  = mkStreaming (displayContent (processStreamingContent cs s) ++ t) false false
      (completedBlocks (processStreamingContent cs s)) [].
Proof.
  pose proof (pending_false_none cs s Hp) as Hs.
  destruct (scan_none_empty s Hs) as [Hbuf Hbc].
  unfold processStreamingContent in *. unfold scan in *.
  rewrite scan_from_app, (scan_plain _ t Hs Ht).
  destruct (scan_from initial_internal s) as [sg buf d bs bc con].
  simpl in *. subst. reflexivity.
Qed.

(** X2: when [mightContainUICPBlock] is false, [parseStreamingContent]
    shows the whole text, completes no block and reports nothing
    pending. *)
Theorem no_backtick_parses_verbatim (s : jstr) (H : mightContainUICPBlock s = false) :
  parseStreamingContent s = mkStreaming s false false [] [].
Proof.
  unfold parseStreamingContent, processStreamingContent, scan.
  rewrite (scan_plain initial_internal s eq_refl H). reflexivity.
Qed.

(** X3: text already shown is never withdrawn: the display text of a
    text is a prefix of the display text of every extension of it. *)
Theorem display_only_grows (cs1 cs2 : StreamingParserState) (s t : jstr) :
  exists d, displayContent (processStreamingContent cs1 (s ++ t))
            = displayContent (processStreamingContent cs2 s) ++ d.
Proof.
  unfold processStreamingContent, scan. cbn [displayContent].
  rewrite scan_from_app. apply scan_from_display.
Qed.

(** X4: while a block body streams in, none of the block's text is
    shown: after an opening fence and a body with no three consecutive
    backticks, the display text is the one before the fence, and the
    returned buffer is the body without up to two trailing backticks
    held as a possible closing fence. *)
Theorem block_body_hidden (cs : StreamingParserState) (a : jstr) (k : nat) (w : ascii)
    (b : jstr)
    (Ha : istage (scan a) = st_none) (Hw : is_block_ws w = true)
    (Hf : has_fence b = false) :
  displayContent (processStreamingContent cs (a ++ fence_open k ++ [w] ++ b))
  = displayContent (processStreamingContent cs a)
  /\ exists m, m <= 2
     /\ buffer (processStreamingContent cs (a ++ fence_open k ++ [w] ++ b))
        ++ repeat backtick m = b.
Proof.
  unfold processStreamingContent, scan in *.
  cbn [displayContent buffer].
  rewrite scan_from_app, app_assoc, scan_from_app, (scan_open JSON_parse _ k w Ha Hw).
  destruct (scan_body JSON_parse b 0
              (mkInternal st_in_block []
                 (idisplayContent (scan_from initial_internal a))
                 (icompletedBlocks (scan_from initial_internal a)) []
                 (iconsole (scan_from initial_internal a))))
    as (m & Hm & Heq & Hb); [lia|reflexivity|exact Hf|].
  rewrite Heq. cbn [idisplayContent ibuffer app]. split; [reflexivity|].
  exists m. split; [exact Hm|]. simpl in Hb. symmetry. exact Hb.
Qed.

(** X5: a well-formed block with a valid body, read after a text that
    leaves nothing pending, adds exactly its placeholder (numbered by
    the blocks before it) to the display text and its value to the
    block list; the character after the closing fence is shown unless
    it is a backtick, and nothing is left pending. *)
Theorem valid_block_appends_placeholder (cs : StreamingParserState) (a : jstr) (k : nat)
    (w : ascii) (body : jstr) (c : ascii) (j : json)
    (Ha : hasPendingBlock (processStreamingContent cs a) = false)
    (Hw : is_block_ws w = true)
    (Hf : has_fence (body ++ [backtick; backtick]) = false)
    (Hv : block_value body = Some j) :
  processStreamingContent cs
    (a ++ fence_open k ++ [w] ++ body ++ [backtick; backtick; backtick; c])
  = mkStreaming
      (displayContent (processStreamingContent cs a)
       ++ placeholder (length (completedBlocks (processStreamingContent cs a)))
       ++ (if Ascii.eqb c backtick then [] else [c]))
      false false (completedBlocks (processStreamingContent cs a) ++ [j]) [].
Proof.
  pose proof (pending_false_none cs a Ha) as Hs.
  destruct (scan_none_empty a Hs) as [Hbuf Hbc].
  unfold processStreamingContent in *. unfold scan in *.
  rewrite scan_from_app, (scan_valid_block_from _ k w body c j Hs Hbuf Hbc Hw Hf Hv).
  cbn [displayContent completedBlocks].
  destruct (Ascii.eqb c backtick); simpl.
  - now rewrite app_nil_r.
  - now rewrite <- app_assoc.
Qed.

(** Outside any block, three or more backticks and a partial tag
    ["u"], ["ui"], ["uic"] or ["uicp"], followed by a three-backtick
    opening fence and its tag, are all shown. *)
Lemma broken_open_scan (d : jstr) (bs : list json) (con : list diagnostic) (k : nat)
    (p : string) :
  In p ["u"; "ui"; "uic"; "uicp"]%string ->
  scan_from (mkInternal st_none [] d bs [] con)
    (repeat backtick (3 + k) ++ list_ascii_of_string p ++ fence_open 0)
  = mkInternal st_none []
      (d ++ repeat backtick (3 + k) ++ list_ascii_of_string p ++ fence_open 0) bs [] con.
Proof.
  intros Hp.
  change (repeat backtick (3 + k)) with ([backtick; backtick; backtick] ++ repeat backtick k).
  rewrite <- app_assoc, scan_from_app.
  change (scan_from (mkInternal st_none [] d bs [] con) [backtick; backtick; backtick])
    with (mkInternal st_backtick3 [backtick; backtick; backtick] d bs [] con).
  rewrite scan_backticks.
  simpl in Hp.
  assert (Hbt : is_block_ws backtick = false) by reflexivity.
  destruct Hp as [<-|[<-|[<-|[<-|[]]]]];
    do 3 (cbn -[is_block_ws]; try rewrite Hbt; try unfold emit, release, push_buffer);
    do 4 (rewrite <- ?app_assoc; cbn); reflexivity.
Qed.

(** X6: a backtick that breaks a partial opening (three or more
    backticks followed by ["u"], ["ui"], ["uic"] or ["uicp"]) is shown
    and not read again as the start of a new fence, so a block start
    whose three-backtick fence begins with that backtick is missed: the
    whole text, block start included, is shown and no block is
    completed or pending. *)
Theorem fence_after_broken_tag_shown (cs : StreamingParserState) (a : jstr) (k : nat)
    (p : string) (w : ascii) (body : jstr)
    (Ha : hasPendingBlock (processStreamingContent cs a) = false)
    (Hp : In p ["u"; "ui"; "uic"; "uicp"]%string)
    (Hw : is_block_ws w = true) (Hb : mightContainUICPBlock body = false) :
  has_block_start (repeat backtick (3 + k) ++ list_ascii_of_string p ++ fence_open 0
                   ++ w :: body) = true
  /\ processStreamingContent cs
       (a ++ repeat backtick (3 + k) ++ list_ascii_of_string p ++ fence_open 0 ++ w :: body)
     = mkStreaming
         (displayContent (processStreamingContent cs a)
          ++ repeat backtick (3 + k) ++ list_ascii_of_string p ++ fence_open 0 ++ w :: body)
         false false (completedBlocks (processStreamingContent cs a)) [].
Proof.
  split.
  { do 2 apply has_block_start_app_r. change (w :: body) with ([w] ++ body).
    apply has_block_start_fence. exact Hw. }
  pose proof (pending_false_none cs a Ha) as Hs.
  destruct (scan_none_empty a Hs) as [Hbuf Hbc].
  unfold processStreamingContent in *. unfold scan in *.
  rewrite scan_from_app.
  destruct (scan_from initial_internal a) as [sg buf d bs bc con].
  simpl in Hs, Hbuf, Hbc. subst sg buf bc. cbn [displayContent completedBlocks].
  replace (repeat backtick (3 + k) ++ list_ascii_of_string p ++ fence_open 0 ++ w :: body)
    with ((repeat backtick (3 + k) ++ list_ascii_of_string p ++ fence_open 0) ++ w :: body)
    by now rewrite <- !app_assoc.
  rewrite scan_from_app, (broken_open_scan d bs con k p Hp).
  rewrite (scan_plain (mkInternal st_none []
                         (d ++ repeat backtick (3 + k) ++ list_ascii_of_string p ++ fence_open 0)
                         bs [] con) (w :: body) eq_refl).
  2:{ cbn [mightContainUICPBlock existsb]. rewrite block_ws_not_backtick by exact Hw.
      exact Hb. }
  cbn. unfold fence_open. cbn. f_equal. do 4 (rewrite <- ?app_assoc; cbn). reflexivity.
Qed.

End ExtractorMore.

Lemma plain_text_extends_display_witness :
  hasPendingBlock (run hello_text) = false
  /\ mightContainUICPBlock (txt " again") = false
  /\ run (hello_text ++ txt " again")
     = mkStreaming (displayContent (run hello_text) ++ txt " again") false false
         (completedBlocks (run hello_text)) [].
Proof.
  split; [vm_compute; reflexivity|]. split; [vm_compute; reflexivity|].
  apply (plain_text_extends_display json_parse createStreamingParserState hello_text
           (txt " again")); vm_compute; reflexivity.
Defined.

Lemma no_backtick_parses_verbatim_witness :
  mightContainUICPBlock (txt "plain text") = false
  /\ parseStreamingContent json_parse (txt "plain text")
     = mkStreaming (txt "plain text") false false [] [].
Proof.
  split; [vm_compute; reflexivity|].
  apply (no_backtick_parses_verbatim json_parse (txt "plain text")).
  vm_compute. reflexivity.
Defined.

Lemma block_body_hidden_witness :
  istage (scan json_parse (txt "Hi ")) = st_none
  /\ is_block_ws line_feed = true
  /\ has_fence (txt "{'uid':'X'`") = false
  /\ (displayContent (run (txt "Hi " ++ fence_open 0 ++ [line_feed] ++ txt "{'uid':'X'`"))
      = displayContent (run (txt "Hi "))
      /\ exists m, m <= 2
         /\ buffer (run (txt "Hi " ++ fence_open 0 ++ [line_feed] ++ txt "{'uid':'X'`"))
            ++ repeat backtick m = txt "{'uid':'X'`").
Proof.
  split; [vm_compute; reflexivity|]. split; [reflexivity|].
  split; [vm_compute; reflexivity|].
  apply (block_body_hidden json_parse createStreamingParserState (txt "Hi ") 0 line_feed
           (txt "{'uid':'X'`")); vm_compute; reflexivity.
Defined.

Lemma valid_block_appends_placeholder_witness :
  hasPendingBlock (run (txt "Hi ")) = false
  /\ is_block_ws line_feed = true
  /\ has_fence (txt "{'uid':'X','data':1}~" ++ [backtick; backtick]) = false
  /\ block_value json_parse (txt "{'uid':'X','data':1}~")
     = Some (JObj [(txt "uid", JStr (txt "X")); (txt "data", JNum 1)])
  /\ run (txt "Hi " ++ fence_open 0 ++ [line_feed] ++ txt "{'uid':'X','data':1}~"
            ++ [backtick; backtick; backtick; " "%char])
     = mkStreaming
         (displayContent (run (txt "Hi "))
          ++ placeholder (length (completedBlocks (run (txt "Hi "))))
          ++ (if Ascii.eqb " "%char backtick then [] else [" "%char]))
         false false
         (completedBlocks (run (txt "Hi "))
          ++ [JObj [(txt "uid", JStr (txt "X")); (txt "data", JNum 1)]]) [].
Proof.
  split; [vm_compute; reflexivity|]. split; [reflexivity|].
  split; [vm_compute; reflexivity|]. split; [vm_compute; reflexivity|].
  apply (valid_block_appends_placeholder json_parse createStreamingParserState (txt "Hi ") 0
           line_feed (txt "{'uid':'X','data':1}~") " "%char
           (JObj [(txt "uid", JStr (txt "X")); (txt "data", JNum 1)]));
    vm_compute; reflexivity.
Defined.

Lemma fence_after_broken_tag_shown_witness :
  hasPendingBlock (run (txt "Hi ")) = false
  /\ In "uic"%string ["u"; "ui"; "uic"; "uicp"]%string
  /\ is_block_ws line_feed = true
  /\ mightContainUICPBlock (txt "{'uid':'X','data':1}~") = false
  /\ (has_block_start (repeat backtick (3 + 1) ++ list_ascii_of_string "uic" ++ fence_open 0
                        ++ line_feed :: txt "{'uid':'X','data':1}~") = true
      /\ run (txt "Hi " ++ repeat backtick (3 + 1) ++ list_ascii_of_string "uic" ++ fence_open 0
                ++ line_feed :: txt "{'uid':'X','data':1}~")
         = mkStreaming
             (displayContent (run (txt "Hi "))
              ++ repeat backtick (3 + 1) ++ list_ascii_of_string "uic" ++ fence_open 0
              ++ line_feed :: txt "{'uid':'X','data':1}~")
             false false (completedBlocks (run (txt "Hi "))) []).
Proof.
  split; [vm_compute; reflexivity|]. split; [simpl; auto|]. split; [reflexivity|].
  split; [vm_compute; reflexivity|].
  apply (fence_after_broken_tag_shown json_parse createStreamingParserState (txt "Hi ") 1
           "uic" line_feed (txt "{'uid':'X','data':1}~"));
    [vm_compute; reflexivity|simpl; auto|reflexivity|vm_compute; reflexivity].
Defined.

(** * Further properties of the component loader *)
Module ComponentLoaderMore.
Import ComponentLoader.

Lemma getComponent_spec (v : string) (st : loader_state) :
  getComponent v st = match componentRegistry st !! v with Some c => c | None => EUndefined end.
Proof. reflexivity. Qed.

(** What [loadComponent] does to the registry, the imports and the
    errors, by cases on the cache check and the import. *)
Lemma loadComponent_cases (import : string -> option namespace)
    (uid componentPath basePath : string) (st : loader_state) :
  let r := loadComponent import uid componentPath basePath st in
  (truthy_export (getComponent uid st) = true
   /\ r = (Resolved (Some (getComponent uid st)), st))
  \/ (truthy_export (getComponent uid st) = false
      /\ imports (snd r) = imports st ++ [full_path componentPath basePath]
      /\ (exists msg, errors (snd r) = errors st ++ [msg])
      /\ componentRegistry (snd r) = componentRegistry st
      /\ fst r = Resolved None)
  \/ (truthy_export (getComponent uid st) = false
      /\ imports (snd r) = imports st ++ [full_path componentPath basePath]
      /\ errors (snd r) = errors st
      /\ exists c, truthy_export c = true /\ fst r = Resolved (Some c)
         /\ componentRegistry (snd r) = <[uid := c]> (componentRegistry st)).
Proof.
  cbv zeta. unfold loadComponent.
  destruct (truthy_export (getComponent uid st)) eqn:Hc; [left; auto|right].
  unfold load_try.
  destruct (import (full_path componentPath basePath)) as [m|]; simpl.
  - match goal with
    | |- context [if negb (truthy_export ?c) then _ else _] =>
        destruct (truthy_export c) eqn:Ht
    end; simpl.
    + right. repeat split; auto. eexists; split; [exact Ht|]. auto.
    + left. repeat split; eauto.
  - left. repeat split; eauto.
Qed.

Lemma get_export_in (m : namespace) (k : string) :
  get_export m k = EUndefined \/ In (get_export m k) (map snd m).
Proof.
  unfold get_export. destruct (find (fun kv => String.eqb (fst kv) k) m) as [[k' v]|] eqn:E;
    [right|left; reflexivity].
  apply find_some in E as [E _]. apply (in_map snd) in E. exact E.
Qed.

Lemma find_export_in (m : namespace) :
  find_export m = EUndefined \/ In (find_export m) (map snd m).
Proof.
  unfold find_export. destruct (find function_or_object (map snd m)) as [v|] eqn:E;
    [right|left; reflexivity].
  apply find_some in E as [E _]. exact E.
Qed.

(** X7: [clearRegistry] with a non-empty uid removes that uid only, and
    the next [loadComponent] for it imports its module again. *)
Theorem clearRegistry_removes_uid (uid : string) (st : loader_state)
    (H : uid <> ""%string) :
  getComponent uid (clearRegistry (Some uid) st) = EUndefined
  /\ (forall v, v <> uid -> getComponent v (clearRegistry (Some uid) st) = getComponent v st)
  /\ (forall import componentPath basePath,
        imports (snd (loadComponent import uid componentPath basePath
                        (clearRegistry (Some uid) st)))
        = imports st ++ [full_path componentPath basePath]).
Proof.
  assert (Hg : getComponent uid (clearRegistry (Some uid) st) = EUndefined).
  { unfold clearRegistry. destruct (decide (uid = ""%string)); [contradiction|].
    rewrite getComponent_spec. cbn [componentRegistry]. now rewrite lookup_delete_eq. }
  split; [exact Hg|]. split.
  - intros v Hv. unfold clearRegistry. destruct (decide (uid = ""%string)); [contradiction|].
    rewrite !getComponent_spec. cbn [componentRegistry].
    rewrite lookup_delete_ne by congruence. reflexivity.
  - intros import componentPath basePath.
    destruct (loadComponent_cases import uid componentPath basePath
                (clearRegistry (Some uid) st)) as [[Ht _]|[[_ [Hi _]]|[_ [Hi _]]]];
      [rewrite Hg in Ht; discriminate| |];
      rewrite Hi; unfold clearRegistry; destruct (decide (uid = ""%string)); reflexivity.
Qed.

(** X8: [clearRegistry()] and [clearRegistry('')] both empty the whole
    registry and keep the imports and errors, so the next
    [loadComponent] of any uid imports its module again. *)
Theorem clearRegistry_all_reimport (opt : option string) (st : loader_state)
    (Hopt : opt = None \/ opt = Some ""%string) :
  (forall v, getComponent v (clearRegistry opt st) = EUndefined)
  /\ imports (clearRegistry opt st) = imports st
  /\ errors (clearRegistry opt st) = errors st
  /\ (forall import uid componentPath basePath,
        imports (snd (loadComponent import uid componentPath basePath (clearRegistry opt st)))
        = imports st ++ [full_path componentPath basePath]).
Proof.
  assert (Hc : clearRegistry opt st = mkLoader ∅ (imports st) (errors st)).
  { destruct Hopt as [->| ->]; [reflexivity|].
    unfold clearRegistry. destruct (decide (""%string = ""%string)); [reflexivity|congruence]. }
  assert (Hg : forall v, getComponent v (clearRegistry opt st) = EUndefined).
  { intros v. rewrite Hc, getComponent_spec. cbn [componentRegistry].
    now rewrite lookup_empty. }
  split; [exact Hg|]. rewrite Hc. split; [reflexivity|]. split; [reflexivity|].
  intros import uid componentPath basePath.
  destruct (loadComponent_cases import uid componentPath basePath
              (mkLoader ∅ (imports st) (errors st))) as [[Ht _]|[[_ [Hi _]]|[_ [Hi _]]]].
  - rewrite <- Hc, Hg in Ht. discriminate.
  - exact Hi.
  - exact Hi.
Qed.

(** X9: [loadComponent] changes the registry at most at its own uid, and
    only by storing there the truthy component it resolves to. *)
Theorem loadComponent_registry_change (import : string -> option namespace)
    (uid componentPath basePath : string) (st : loader_state) :
  componentRegistry (snd (loadComponent import uid componentPath basePath st))
  = componentRegistry st
  \/ exists c, truthy_export c = true
     /\ fst (loadComponent import uid componentPath basePath st) = Resolved (Some c)
     /\ componentRegistry (snd (loadComponent import uid componentPath basePath st))
        = <[uid := c]> (componentRegistry st).
Proof.
  destruct (loadComponent_cases import uid componentPath basePath st)
    as [[Ht Hr]|[(Ht & Hi & He & Hreg & _)|(Ht & Hi & He & Hc)]].
  - left. rewrite Hr. reflexivity.
  - left. exact Hreg.
  - right. exact Hc.
Qed.

(** X10: a module with no truthy export (a [null] export is found by the
    [typeof] test but is not truthy) resolves to [null]: the import is
    recorded, one error is logged and nothing is registered. *)
Theorem no_truthy_export_null (import : string -> option namespace)
    (uid componentPath basePath : string) (st : loader_state) (m : namespace)
    (Hmiss : truthy_export (getComponent uid st) = false)
    (Hm : import (full_path componentPath basePath) = Some m)
    (Hall : forallb (fun kv => negb (truthy_export (snd kv))) m = true) :
  loadComponent import uid componentPath basePath st
  = (Resolved None,
     mkLoader (componentRegistry st) (imports st ++ [full_path componentPath basePath])
       (errors st ++ ["[UICP] No valid component export found"%string])).
Proof.
  assert (Hin : forall v, In v (map snd m) -> truthy_export v = false).
  { intros v Hv. apply in_map_iff in Hv as [[k v'] [<- Hkv]].
    rewrite forallb_forall in Hall. specialize (Hall _ Hkv). simpl in Hall.
    now apply negb_true_iff in Hall. }
  assert (Hf : forall v, (v = EUndefined \/ In v (map snd m)) -> truthy_export v = false).
  { intros v [->|Hv]; [reflexivity|auto]. }
  unfold loadComponent. rewrite Hmiss. unfold load_try. rewrite Hm. cbv zeta.
  rewrite (Hf _ (get_export_in m "default")), (Hf _ (get_export_in m uid)),
    (Hf _ (get_export_in m (export_name componentPath))), (Hf _ (find_export_in m)).
  reflexivity.
Qed.

Lemma strip_extension_spec (s : list ascii) :
  exists ext, s = strip_extension s ++ ext
    /\ (ext = [] \/ exists x, ext = "."%char :: x /\ x <> [] /\ forallb is_word_char x = true).
Proof.
  induction s as [|c r IH]; simpl.
  - exists []. auto.
  - destruct (Ascii.eqb c "."%char && negb (length r =? 0) && forallb is_word_char r) eqn:E.
    + apply andb_true_iff in E as [E Hw]. apply andb_true_iff in E as [Ec Hl].
      apply Ascii.eqb_eq in Ec. subst c. exists ("."%char :: r). split; [reflexivity|].
      right. exists r. split; [reflexivity|]. split; [|exact Hw].
      intros ->. discriminate.
    + destruct IH as [ext [He Hx]]. exists ext. split; [|exact Hx].
      simpl. f_equal. exact He.
Qed.

(** A text that ends in a dot and one or more word characters loses
    exactly that suffix. *)
Lemma strip_extension_suffix (y x : list ascii) :
  x <> [] -> forallb is_word_char x = true ->
  strip_extension (y ++ "."%char :: x) = y.
Proof.
  intros Hx Hw. induction y as [|c y IH]; simpl.
  - destruct x as [|a x]; [contradiction|]. simpl in Hw |- *. now rewrite Hw.
  - rewrite forallb_app. cbn [forallb]. change (is_word_char "."%char) with false.
    rewrite !andb_false_r. cbn. now rewrite IH.
Qed.

Lemma last_segment_spec (acc s : list ascii) :
  ~ In "/"%char acc ->
  exists pre, rev acc ++ s = pre ++ last_segment_acc acc s
    /\ (pre = [] \/ exists q, pre = q ++ ["/"%char])
    /\ ~ In "/"%char (last_segment_acc acc s).
Proof.
  revert acc; induction s as [|c r IH]; intros acc Ha; simpl.
  - exists []. rewrite app_nil_r. split; [reflexivity|]. split; [now left|].
    now rewrite <- in_rev.
  - destruct (Ascii.eqb_spec c "/"%char) as [->|Hc].
    + destruct (IH [] (fun H => H)) as [pre [Hp [Hq Hn]]]. simpl in Hp.
      exists (rev acc ++ "/"%char :: pre). split; [|split; [right|exact Hn]].
      * rewrite <- app_assoc. simpl. do 2 f_equal. exact Hp.
      * destruct Hq as [->|[q ->]].
        -- exists (rev acc). reflexivity.
        -- exists (rev acc ++ "/"%char :: q). now rewrite <- app_assoc.
    + destruct (IH (c :: acc)) as [pre [Hp Hn]].
      { intros [E|E]; [congruence|contradiction]. }
      exists pre. split; [|exact Hn]. rewrite <- Hp. simpl. now rewrite <- app_assoc.
Qed.

(** X11: the export name tried from a component path is its part after
    the last ['/'] with at most one trailing extension (a dot followed by
    one or more word characters) removed, and the extension is removed
    whenever that part has one. *)
Theorem export_name_from_last_segment (componentPath : string) :
  exists pre seg ext,
    list_ascii_of_string componentPath = pre ++ seg
    /\ (pre = [] \/ exists q, pre = q ++ ["/"%char])
    /\ ~ In "/"%char seg
    /\ seg = list_ascii_of_string (export_name componentPath) ++ ext
    /\ (ext = [] \/ exists x, ext = "."%char :: x /\ x <> [] /\ forallb is_word_char x = true)
    /\ (ext = [] -> forall y x, seg = y ++ "."%char :: x -> x <> [] ->
                    forallb is_word_char x = false).
Proof.
  destruct (last_segment_spec [] (list_ascii_of_string componentPath) (fun H => H))
    as [pre [Hp [Hq Hn]]].
  destruct (strip_extension_spec (last_segment_acc [] (list_ascii_of_string componentPath)))
    as [ext [He Hx]].
  exists pre, (last_segment_acc [] (list_ascii_of_string componentPath)), ext.
  split; [exact Hp|]. split; [exact Hq|]. split; [exact Hn|].
  unfold export_name. rewrite list_ascii_of_string_of_list_ascii.
  split; [exact He|]. split; [exact Hx|].
  intros -> y x Hs Hx0. destruct (forallb is_word_char x) eqn:Hw; [|reflexivity].
  exfalso. rewrite app_nil_r in He. rewrite Hs in He.
  rewrite (strip_extension_suffix y x Hx0 Hw) in He.
  apply (f_equal (@length ascii)) in He. rewrite length_app in He. simpl in He. lia.
Qed.

Lemma clearRegistry_removes_uid_witness :
  ("Card"%string <> ""%string)
  /\ (getComponent "Card" (clearRegistry (Some "Card"%string)
                            (registerComponent "Card" (EFun 1) (mkLoader ∅ [] [])))
      = EUndefined
      /\ (forall v, v <> "Card"%string ->
            getComponent v (clearRegistry (Some "Card"%string)
                              (registerComponent "Card" (EFun 1) (mkLoader ∅ [] [])))
            = getComponent v (registerComponent "Card" (EFun 1) (mkLoader ∅ [] [])))
      /\ (forall import componentPath basePath,
            imports (snd (loadComponent import "Card" componentPath basePath
                            (clearRegistry (Some "Card"%string)
                               (registerComponent "Card" (EFun 1) (mkLoader ∅ [] [])))))
            = imports (registerComponent "Card" (EFun 1) (mkLoader ∅ [] []))
              ++ [full_path componentPath basePath])).
Proof.
  split; [discriminate|].
  apply (clearRegistry_removes_uid "Card" (registerComponent "Card" (EFun 1) (mkLoader ∅ [] []))).
  discriminate.
Defined.

Lemma no_truthy_export_null_witness :
  truthy_export (getComponent "Card" (mkLoader ∅ [] [])) = false
  /\ (fun p : string => if String.eqb p "/components/uicp/Card.tsx"
                        then Some [("default"%string, ENull); ("Card"%string, EStr "")]
                        else None) (full_path "Card.tsx" "/components/uicp")
     = Some [("default"%string, ENull); ("Card"%string, EStr "")]
  /\ forallb (fun kv => negb (truthy_export (snd kv)))
       [("default"%string, ENull); ("Card"%string, EStr "")] = true
  /\ loadComponent (fun p : string => if String.eqb p "/components/uicp/Card.tsx"
                                      then Some [("default"%string, ENull);
                                                 ("Card"%string, EStr "")]
                                      else None)
       "Card" "Card.tsx" "/components/uicp" (mkLoader ∅ [] [])
     = (Resolved None,
        mkLoader (componentRegistry (mkLoader ∅ [] []))
          (imports (mkLoader ∅ [] []) ++ [full_path "Card.tsx" "/components/uicp"])
          (errors (mkLoader ∅ [] []) ++ ["[UICP] No valid component export found"%string])).
Proof.
  split; [reflexivity|]. split; [vm_compute; reflexivity|]. split; [reflexivity|].
  apply (no_truthy_export_null
           (fun p : string => if String.eqb p "/components/uicp/Card.tsx"
                              then Some [("default"%string, ENull); ("Card"%string, EStr "")]
                              else None)
           "Card" "Card.tsx" "/components/uicp" (mkLoader ∅ [] [])
           [("default"%string, ENull); ("Card"%string, EStr "")]);
    [reflexivity|vm_compute; reflexivity|reflexivity].
Defined.

Lemma clearRegistry_all_reimport_witness :
  (@None string = None \/ @None string = Some ""%string)
  /\ ((forall v, getComponent v (clearRegistry None
                                   (registerComponent "Card" (EFun 1) (mkLoader ∅ ["a"%string] [])))
                 = EUndefined)
      /\ imports (clearRegistry None (registerComponent "Card" (EFun 1) (mkLoader ∅ ["a"%string] [])))
         = imports (registerComponent "Card" (EFun 1) (mkLoader ∅ ["a"%string] []))
      /\ errors (clearRegistry None (registerComponent "Card" (EFun 1) (mkLoader ∅ ["a"%string] [])))
         = errors (registerComponent "Card" (EFun 1) (mkLoader ∅ ["a"%string] []))
      /\ (forall import uid componentPath basePath,
            imports (snd (loadComponent import uid componentPath basePath
                            (clearRegistry None
                               (registerComponent "Card" (EFun 1) (mkLoader ∅ ["a"%string] [])))))
            = imports (registerComponent "Card" (EFun 1) (mkLoader ∅ ["a"%string] []))
              ++ [full_path componentPath basePath])).
Proof.
  split; [left; reflexivity|].
  apply (clearRegistry_all_reimport None
           (registerComponent "Card" (EFun 1) (mkLoader ∅ ["a"%string] []))).
  left; reflexivity.
Defined.

End ComponentLoaderMore.

(** * Further properties of the definitions cache *)
Module DefinitionsCacheMore.
Import DefinitionsCache.

(** What a call with a string source does to the cache: it resolves with
    [d] and leaves [d] stored under the source, or it rejects and leaves
    the cache as it was; no other source's entry changes. *)
Lemma call_cases (env : call_env) (s : string) (ttl : Z) (st : cache_state) :
  (exists d t, fst (loadDefinitionsWithCache env (SrcString s) ttl st) = Some d
     /\ definitionsCache (snd (loadDefinitionsWithCache env (SrcString s) ttl st))
        = <[s := mkEntry d t]> (definitionsCache st))
  \/ (fst (loadDefinitionsWithCache env (SrcString s) ttl st) = None
      /\ definitionsCache (snd (loadDefinitionsWithCache env (SrcString s) ttl st))
         = definitionsCache st).
Proof.
  assert (Hf : (exists d t, fst (load_fresh env s st) = Some d
                 /\ definitionsCache (snd (load_fresh env s st))
                    = <[s := mkEntry d t]> (definitionsCache st))
               \/ (fst (load_fresh env s st) = None
                   /\ definitionsCache (snd (load_fresh env s st)) = definitionsCache st)).
  { unfold load_fresh. destruct (loadDefinitions env s) as [d|]; simpl; eauto. }
  simpl. destruct (definitionsCache st !! s) as [e|] eqn:E; [|exact Hf].
  destruct (now_check env - timestamp e <? ttl)%Z; [|exact Hf].
  left. exists (data e), (timestamp e). split; [reflexivity|].
  simpl. destruct e as [d t]. symmetry. apply insert_id. exact E.
Qed.

(** X12: a call with a string source that resolves to [d] leaves [d]
    cached under that source, and one that rejects leaves the cache
    unchanged, so the next call loads again; in both cases no other
    source's entry changes. *)
Theorem call_updates_cache (env : call_env) (s : string) (ttl : Z) (st : cache_state) :
  (forall s', s' <> s ->
     definitionsCache (snd (loadDefinitionsWithCache env (SrcString s) ttl st)) !! s'
     = definitionsCache st !! s')
  /\ match fst (loadDefinitionsWithCache env (SrcString s) ttl st) with
     | Some d => exists t,
         definitionsCache (snd (loadDefinitionsWithCache env (SrcString s) ttl st)) !! s
         = Some (mkEntry d t)
     | None =>
         definitionsCache (snd (loadDefinitionsWithCache env (SrcString s) ttl st))
         = definitionsCache st
     end.
Proof.
  destruct (call_cases env s ttl st) as [(d & t & Hd & Hc)|[Hn Hc]]; rewrite Hc.
  - split.
    + intros s' Hs'. apply lookup_insert_ne. congruence.
    + rewrite Hd. exists t. apply lookup_insert_eq.
  - split; [reflexivity|]. rewrite Hn. reflexivity.
Qed.

(** X13: after a call that performed a load and resolved, a call for the
    same source less than [ttl] after the store returns the same data
    from the cache, with no load and no change. *)
Theorem fresh_load_then_hit (env env2 : call_env) (s : string) (ttl : Z)
    (st st' : cache_state) (d : Definitions)
    (H : loadDefinitionsWithCache env (SrcString s) ttl st = (Some d, st'))
    (Hl : loads st' <> loads st)
    (Ht : (now_check env2 - now_store env < ttl)%Z) :
  loadDefinitionsWithCache env2 (SrcString s) ttl st' = (Some d, st').
Proof.
  assert (Hfr : load_fresh env s st = (Some d, st')).
  { revert H. simpl. destruct (definitionsCache st !! s) as [e|]; [|auto].
    destruct (now_check env - timestamp e <? ttl)%Z; [|auto].
    intros E. injection E as _ <-. contradiction. }
  revert Hfr. unfold load_fresh. destruct (loadDefinitions env s) as [d'|]; [|discriminate].
  intros E. injection E as <- <-.
  simpl. rewrite lookup_insert_eq. simpl. rewrite (proj2 (Z.ltb_lt _ _) Ht). reflexivity.
Qed.

(** X14: [clearDefinitionsCache] with a non-empty source removes that
    source's entry only, so the next call for it loads again. *)
Theorem clear_source_forces_reload (s : string) (st : cache_state) (H : s <> ""%string) :
  definitionsCache (clearDefinitionsCache (Some s) st) !! s = None
  /\ (forall s', s' <> s ->
        definitionsCache (clearDefinitionsCache (Some s) st) !! s' = definitionsCache st !! s')
  /\ (forall env ttl,
        loads (snd (loadDefinitionsWithCache env (SrcString s) ttl
                      (clearDefinitionsCache (Some s) st)))
        = loads st ++ [s]).
Proof.
  unfold clearDefinitionsCache. destruct (decide (s = ""%string)); [contradiction|].
  split; [apply lookup_delete_eq|]. split.
  - intros s' Hs'. apply lookup_delete_ne. congruence.
  - intros env ttl. simpl. rewrite lookup_delete_eq. unfold load_fresh.
    destruct (loadDefinitions env s); reflexivity.
Qed.

(** X15: [clearDefinitionsCache()] and [clearDefinitionsCache('')] empty
    the whole cache, so the next call for any source loads again. *)
Theorem clear_all_forces_reload (st : cache_state) :
  forall opt, opt = None \/ opt = Some ""%string ->
  forall s env ttl,
    definitionsCache (clearDefinitionsCache opt st) !! s = None
    /\ loads (snd (loadDefinitionsWithCache env (SrcString s) ttl
                     (clearDefinitionsCache opt st)))
       = loads st ++ [s].
Proof.
  intros opt Hopt s env ttl.
  assert (E : clearDefinitionsCache opt st = mkCache ∅ (loads st)).
  { destruct Hopt as [->| ->]; [reflexivity|].
    unfold clearDefinitionsCache. destruct (decide (""%string = ""%string)); [reflexivity|].
    contradiction. }
  rewrite E. split; [apply lookup_empty|].
  simpl. rewrite lookup_empty. unfold load_fresh. destruct (loadDefinitions env s); reflexivity.
Qed.

Lemma fresh_load_then_hit_witness :
  loadDefinitionsWithCache (mkEnv 0 10 (fun _ => Some JNull)) (SrcString "defs.json") 1000
    (mkCache ∅ [])
  = (Some JNull, mkCache (<["defs.json"%string := mkEntry JNull 10]> ∅) ["defs.json"%string])
  /\ loads (mkCache (<["defs.json"%string := mkEntry JNull 10]> ∅) ["defs.json"%string])
     <> loads (mkCache ∅ [])
  /\ (now_check (mkEnv 900 900 (fun _ => None)) - now_store (mkEnv 0 10 (fun _ => Some JNull))
      < 1000)%Z
  /\ loadDefinitionsWithCache (mkEnv 900 900 (fun _ => None)) (SrcString "defs.json") 1000
       (mkCache (<["defs.json"%string := mkEntry JNull 10]> ∅) ["defs.json"%string])
     = (Some JNull,
        mkCache (<["defs.json"%string := mkEntry JNull 10]> ∅) ["defs.json"%string]).
Proof.
  assert (H1 : loadDefinitionsWithCache (mkEnv 0 10 (fun _ => Some JNull))
                 (SrcString "defs.json") 1000 (mkCache ∅ [])
               = (Some JNull, mkCache (<["defs.json"%string := mkEntry JNull 10]> ∅)
                                ["defs.json"%string])).
  { simpl. rewrite lookup_empty. reflexivity. }
  split; [exact H1|]. split; [discriminate|]. split; [simpl; lia|].
  apply (fresh_load_then_hit (mkEnv 0 10 (fun _ => Some JNull)) (mkEnv 900 900 (fun _ => None))
           "defs.json" 1000 (mkCache ∅ [])
           (mkCache (<["defs.json"%string := mkEntry JNull 10]> ∅) ["defs.json"%string]) JNull);
    [exact H1|discriminate|simpl; lia].
Defined.

Lemma clear_source_forces_reload_witness :
  ("defs.json"%string <> ""%string)
  /\ (definitionsCache (clearDefinitionsCache (Some "defs.json"%string)
                          (mkCache (<["defs.json"%string := mkEntry JNull 10]> ∅) [])) !!
        "defs.json"%string = None
      /\ (forall s', s' <> "defs.json"%string ->
            definitionsCache (clearDefinitionsCache (Some "defs.json"%string)
                                (mkCache (<["defs.json"%string := mkEntry JNull 10]> ∅) [])) !! s'
            = definitionsCache (mkCache (<["defs.json"%string := mkEntry JNull 10]> ∅) []) !! s')
      /\ (forall env ttl,
            loads (snd (loadDefinitionsWithCache env (SrcString "defs.json") ttl
                          (clearDefinitionsCache (Some "defs.json"%string)
                             (mkCache (<["defs.json"%string := mkEntry JNull 10]> ∅) []))))
            = loads (mkCache (<["defs.json"%string := mkEntry JNull 10]> ∅) [])
              ++ ["defs.json"%string])).
Proof.
  split; [discriminate|].
  apply (clear_source_forces_reload "defs.json"
           (mkCache (<["defs.json"%string := mkEntry JNull 10]> ∅) [])).
  discriminate.
Defined.

Lemma clear_all_forces_reload_witness :
  (Some ""%string = None \/ Some ""%string = Some ""%string)
  /\ definitionsCache (clearDefinitionsCache (Some ""%string)
                         (mkCache (<["defs.json"%string := mkEntry JNull 10]> ∅) [])) !!
       "defs.json"%string = None
  /\ loads (snd (loadDefinitionsWithCache (mkEnv 0 0 (fun _ => Some JNull))
                   (SrcString "defs.json") 1000
                   (clearDefinitionsCache (Some ""%string)
                      (mkCache (<["defs.json"%string := mkEntry JNull 10]> ∅) []))))
     = loads (mkCache (<["defs.json"%string := mkEntry JNull 10]> ∅) []) ++ ["defs.json"%string].
Proof.
  split; [right; reflexivity|].
  apply (clear_all_forces_reload (mkCache (<["defs.json"%string := mkEntry JNull 10]> ∅) [])
           (Some ""%string) (or_intror eq_refl) "defs.json" (mkEnv 0 0 (fun _ => Some JNull)) 1000).
Defined.

End DefinitionsCacheMore.
